(** * AutoSub: subtitle generation service and session controller

    A shallow embedding of [src/services/geminiService.ts], [src/types.ts]
    and the state handling of [src/App.tsx].

    The program:
    - [JS]            : JavaScript strings as sequences of UTF-16 code units,
                        with the [String.prototype] operations the code calls.
    - [RegExp]        : the regular expression literals of the service and a
                        backtracking matcher for them.
    - [Types]         : [src/types.ts].
    - [GeminiService] : [generateSubtitles], in a monad that records the
                        observable effects and carries thrown errors.
    - [App]           : the component state of [App.tsx], its handlers, the
                        rendering guards of the controls bound to them, the
                        object URL store of the browser and the pending
                        invocations.

    - [Download]      : the name [handleDownload] of [App.tsx] gives to the
                        file.
    - [AudioInput]    : the component [AudioInput]: the display of the
                        time, the name of a recording, the handlers of
                        the recorder and of the timer.

    The properties:
    - [FileReads]     : [generateSubtitles] when the read of the file
                        may fail.
    - [Samples], [Spec], [Observations], [Sessions], [PromptSpec],
      [Removal]       : sample inputs, and the notions the properties are
                        stated with.
    - [JSFacts] .. [ServiceFacts], [AppFacts] : lemmas.
    - [ServiceSpec]   : the properties of the service (C1, C2, C3, C6,
                        C7, C8, C10).
    - [AppSpec]       : the properties of the component (C4, C5, C9).
    - [ServiceMore], [AppMore], [EndToEnd], [DownloadFacts],
      [AudioInputFacts] : further properties (X1 to X24). *)

From Stdlib Require Import List NArith ZArith Bool Ascii String Arith Lia.
From Stdlib Require Import DecimalPos DecimalN.
Import ListNotations.

(* ------------------------------------------------------------------ *)
(** ** JavaScript strings *)

Module JS.

(** A JavaScript string is a sequence of 16-bit code units. *)
Definition code := N.
Definition jsstring := list code.

(** String literals of the source are written here as UTF-8 text and
    decoded to code units (surrogate pairs above the BMP). *)
Fixpoint utf16_of_utf8 (bs : list N) : jsstring :=
  match bs with
  | [] => []
  | b0 :: t0 =>
    if (b0 <? 128)%N then b0 :: utf16_of_utf8 t0
    else if (b0 <? 224)%N then
      match t0 with
      | b1 :: t1 => ((b0 mod 32) * 64 + b1 mod 64)%N :: utf16_of_utf8 t1
      | _ => []
      end
    else if (b0 <? 240)%N then
      match t0 with
      | b1 :: b2 :: t2 =>
        ((b0 mod 16) * 4096 + (b1 mod 64) * 64 + b2 mod 64)%N :: utf16_of_utf8 t2
      | _ => []
      end
    else
      match t0 with
      | b1 :: b2 :: b3 :: t3 =>
        let cp := ((b0 mod 8) * 262144 + (b1 mod 64) * 4096
                   + (b2 mod 64) * 64 + b3 mod 64 - 65536)%N in
        (55296 + cp / 1024)%N :: (56320 + cp mod 1024)%N :: utf16_of_utf8 t3
      | _ => []
      end
  end.

Definition js (s : string) : jsstring :=
  utf16_of_utf8 (map N_of_ascii (list_ascii_of_string s)).

Definition LF : code := 10%N.
Definition BACKTICK : code := 96%N.
Definition COMMA : code := 44%N.
Definition COLON : code := 58%N.

(** [ToBoolean] on a string: only the empty string is falsy. *)
Definition truthy (s : jsstring) : bool :=
  match s with [] => false | _ :: _ => true end.

(** [ToBoolean] on [string | null | undefined]. *)
Definition truthy_opt (o : option jsstring) : bool :=
  match o with Some s => truthy s | None => false end.

(** [a || b] on strings. *)
Definition or_else (a b : jsstring) : jsstring := if truthy a then a else b.

(** The decimal digits, [\d] without the [u] flag. *)
Definition is_digit (c : code) : bool := ((48 <=? c) && (c <=? 57))%N.

(** WhiteSpace and LineTerminator code units: what [\s] matches and what
    [String.prototype.trim] removes. *)
Definition is_space (c : code) : bool :=
  (((9 <=? c) && (c <=? 13)) || (c =? 32) || (c =? 160) || (c =? 5760)
   || ((8192 <=? c) && (c <=? 8202)) || (c =? 8232) || (c =? 8233)
   || (c =? 8239) || (c =? 8287) || (c =? 12288) || (c =? 65279))%N.

(** [s.startsWith(p)] *)
Fixpoint startsWith (p s : jsstring) : bool :=
  match p, s with
  | [], _ => true
  | _ :: _, [] => false
  | a :: p', c :: s' => (a =? c)%N && startsWith p' s'
  end.

(** [s.includes(p)] *)
Fixpoint includes (p s : jsstring) : bool :=
  startsWith p s ||
  match s with
  | [] => false
  | _ :: s' => includes p s'
  end.

(** [s.trimStart()], [s.trimEnd()], [s.trim()] *)
Fixpoint trimStart (s : jsstring) : jsstring :=
  match s with
  | [] => []
  | c :: s' => if is_space c then trimStart s' else s
  end.

Fixpoint trimEnd (s : jsstring) : jsstring :=
  match s with
  | [] => []
  | c :: s' =>
    match trimEnd s' with
    | [] => if is_space c then [] else [c]
    | r => c :: r
    end
  end.

Definition trim (s : jsstring) : jsstring := trimEnd (trimStart s).

(** [s.substring(i)] for [0 <= i]: the suffix from code unit [i]. *)
Definition substring (s : jsstring) (i : nat) : jsstring := skipn i s.

(** [s.split(sep)] for a separator of one code unit. *)
Fixpoint split (sep : code) (s : jsstring) : list jsstring :=
  match s with
  | [] => [[]]
  | c :: s' =>
    if (c =? sep)%N then [] :: split sep s'
    else match split sep s' with
         | h :: t => (c :: h) :: t
         | [] => [[c]]
         end
  end.

End JS.

(* ------------------------------------------------------------------ *)
(** ** Regular expressions *)

Module RegExp.
Import JS.

(** The fragment of the pattern language the literals of the source use:
    [^], a single character or character class, concatenation, and the
    greedy star of a single character or class. *)
Inductive regex : Type :=
| Eps
| Bol
| Chr (p : code -> bool)
| Seq (r1 r2 : regex)
| Star (p : code -> bool).

(** Greedy iteration with backtracking: take one more character first, and
    fall back to the continuation when that fails. *)
Fixpoint star (p : code -> bool) (pos : nat) (s : jsstring)
         (k : nat -> jsstring -> option nat) : option nat :=
  match s with
  | c :: s' =>
    if p c then
      match star p (S pos) s' k with
      | Some e => Some e
      | None => k pos s
      end
    else k pos s
  | [] => k pos []
  end.

(** The matcher: [pos] is the index of the first code unit of [s] in the
    subject string; the continuation receives the index reached and the
    rest of the subject, and the result is the end index of the match. *)
Fixpoint run (r : regex) (pos : nat) (s : jsstring)
         (k : nat -> jsstring -> option nat) : option nat :=
  match r with
  | Eps => k pos s
  | Bol => if Nat.eqb pos 0 then k pos s else None
  | Chr p =>
    match s with
    | c :: s' => if p c then k (S pos) s' else None
    | [] => None
    end
  | Seq r1 r2 => run r1 pos s (fun pos' s' => run r2 pos' s' k)
  | Star p => star p pos s k
  end.

Definition match_at (r : regex) (pos : nat) (s : jsstring) : option nat :=
  run r pos s (fun e _ => Some e).

(** The leftmost match at or after [pos]: its start and end index. *)
Fixpoint search (r : regex) (pos : nat) (s : jsstring) : option (nat * nat) :=
  match match_at r pos s with
  | Some e => Some (pos, e)
  | None =>
    match s with
    | [] => None
    | _ :: s' => search r (S pos) s'
    end
  end.

(** [s.match(r)] for a regular expression without the [g] flag; [index]
    of the result is the first component. *)
Definition exec (r : regex) (s : jsstring) : option (nat * nat) := search r 0 s.

(** [r.test(s)] *)
Definition test (r : regex) (s : jsstring) : bool :=
  match exec r s with Some _ => true | None => false end.

(** [s.replace(r, by)] for a regular expression with the [g] flag: every
    match, scanning from the left and resuming after each match, is
    replaced.  [skip] counts the code units of the current match that are
    still to be dropped. *)
Fixpoint replace_from (r : regex) (by_ : jsstring) (skip pos : nat)
         (s : jsstring) : jsstring :=
  match s with
  | [] =>
    match skip, match_at r pos [] with
    | O, Some _ => by_
    | _, _ => []
    end
  | c :: s' =>
    match skip with
    | S n => replace_from r by_ n (S pos) s'
    | O =>
      match match_at r pos s with
      | Some e =>
        match e - pos with
        | O => by_ ++ c :: replace_from r by_ 0 (S pos) s'
        | S n => by_ ++ replace_from r by_ n (S pos) s'
        end
      | None => c :: replace_from r by_ 0 (S pos) s'
      end
    end
  end.

Definition replace (r : regex) (by_ : jsstring) (s : jsstring) : jsstring :=
  replace_from r by_ 0 0 s.

(** Pattern characters.  With the [i] flag a pattern character matches a
    code unit with the same canonical (upper case) form; a code unit of 128
    or above never canonicalizes to an ASCII one, so against an ASCII
    pattern character only its two ASCII cases match. *)
Definition canonicalize (c : code) : code :=
  if ((97 <=? c) && (c <=? 122))%N then (c - 32)%N else c.

Definition exactly (a c : code) : bool := (a =? c)%N.
Definition ignoring_case (a c : code) : bool :=
  (canonicalize a =? canonicalize c)%N.

Fixpoint literal (cmp : code -> code -> bool) (l : jsstring) : regex :=
  match l with
  | [] => Eps
  | a :: l' => Seq (Chr (cmp a)) (literal cmp l')
  end.

Definition plus (p : code -> bool) : regex := Seq (Chr p) (Star p).
Definition twice (p : code -> bool) : regex := Seq (Chr p) (Chr p).

(** [/```srt/gi] *)
Definition fence_srt_re : regex := literal ignoring_case (js "```srt").

(** [/```/g] *)
Definition fence_re : regex := literal exactly (js "```").

(** [/^\d+/] *)
Definition leading_digits_re : regex := Seq Bol (plus is_digit).

(** [/\d+\s*\n\d{2}:\d{2}:\d{2}/] *)
Definition cue_anchor_re : regex :=
  Seq (plus is_digit)
 (Seq (Star is_space)
 (Seq (Chr (exactly LF))
 (Seq (twice is_digit)
 (Seq (Chr (exactly COLON))
 (Seq (twice is_digit)
 (Seq (Chr (exactly COLON))
      (twice is_digit))))))).

End RegExp.


(* ------------------------------------------------------------------ *)
(** ** [src/types.ts] *)

Module Types.
Import JS.

Inductive TranslationMode : Type :=
| TRANSCRIPT_ONLY
| TO_ENGLISH
| TO_CHINESE
| BILINGUAL_CN_EN.

(** The string value of each member of the enum. *)
Definition label (mode : TranslationMode) : jsstring :=
  match mode with
  | TRANSCRIPT_ONLY => js "保持原语言 (仅转录)"
  | TO_ENGLISH => js "翻译为英文 (English)"
  | TO_CHINESE => js "翻译为中文 (简体)"
  | BILINGUAL_CN_EN => js "双语字幕 (中文 + 英文)"
  end.

(** A [File] or [Blob]: its [type] and its content. *)
Record Blob : Type := {
  blob_type : jsstring;
  blob_bytes : list N
}.

(** Object URLs ([blob:] URLs) are named by their serial number; as
    strings they are never empty. *)
Definition ObjectURL := nat.

Record AudioState : Type := {
  file : option Blob;
  url : option ObjectURL;
  name : jsstring
}.

Record ProcessingState : Type := {
  isProcessing : bool;
  progress : jsstring;
  error : option jsstring
}.

End Types.

(* ------------------------------------------------------------------ *)
(** ** [src/services/geminiService.ts] *)

Module GeminiService.
Import JS RegExp Types.

(** *** Effects *)

Record InlineData : Type := {
  data : option jsstring;
  mimeType : jsstring
}.

(** The argument of [ai.models.generateContent], with the key the client
    was built with.  The temperature is a decimal: a mantissa and a power
    of ten. *)
Record Request : Type := {
  apiKey : jsstring;
  model : jsstring;
  part_inlineData : InlineData;
  part_text : jsstring;
  systemInstruction : jsstring;
  temperature : Z * Z
}.

Record Response : Type := {
  text : option jsstring
}.

(** A computation returns a value or throws an [Error] with a message.
    A value thrown that has no string message, for which
    [error.message.includes] in the [catch] block of the service would
    itself throw, is not among the outcomes. *)
Inductive Outcome (A : Type) : Type :=
| Return (a : A)
| Throw (message : jsstring).
Arguments Return {A} a.
Arguments Throw {A} message.

(** What an observer of the service can see: file reads, calls of the
    transport, console output. *)
Inductive Effect : Type :=
| ReadAsDataURL (f : Blob)
| GenerateContent (req : Request)
| ConsoleWarn (msg : jsstring)
| ConsoleError (msg : jsstring).

(** The surroundings of the service: [process.env.API_KEY], the browser's
    [FileReader], and the remote model behind the transport, which
    resolves with a response or rejects with an error.  [readAsDataURL]
    is the data URL of a read that succeeds; reads that fail are told
    apart in [FileReads].  A rejection of the transport is an [Error]
    that carries a message, as those of the client library are. *)
Record Env : Type := {
  API_KEY : option jsstring;
  readAsDataURL : Blob -> jsstring;
  generateContent : Request -> Outcome Response
}.

(** Computations append to the trace of effects and may throw. *)
Definition M (A : Type) : Type := list Effect -> Outcome A * list Effect.

Definition ret {A} (a : A) : M A := fun tr => (Return a, tr).
Definition throw {A} (message : jsstring) : M A := fun tr => (Throw message, tr).
Definition emit (e : Effect) : M unit := fun tr => (Return tt, tr ++ [e]).
Definition lift {A} (o : Outcome A) : M A := fun tr => (o, tr).

Definition bind {A B} (m : M A) (f : A -> M B) : M B :=
  fun tr =>
    match m tr with
    | (Return a, tr') => f a tr'
    | (Throw message, tr') => (Throw message, tr')
    end.

(** [try { m } catch (error) { handler error.message }]: the handler is
    given the message of the error caught; the [catch] block of the
    service reads nothing else of it but for the console. *)
Definition try_catch {A} (m : M A) (handler : jsstring -> M A) : M A :=
  fun tr =>
    match m tr with
    | (Return a, tr') => (Return a, tr')
    | (Throw message, tr') => handler message tr'
    end.

Notation "x <- m ;; f" := (bind m (fun x => f))
  (at level 61, m at next level, right associativity).
Notation "m ;;; f" := (bind m (fun _ => f))
  (at level 61, right associativity).

(** *** The service *)

(** [const GEMINI_API_KEY = process.env.API_KEY || ''] *)
Definition GEMINI_API_KEY (env : Env) : jsstring :=
  match API_KEY env with
  | Some k => or_else k []
  | None => []
  end.

(** The part [fileToGenerativePart] resolves with after a read that
    succeeded: the data URL of the file without its
    [data:audio/xxx;base64,] prefix, and the type of the file,
    [audio/mp3] when it has none.  After a read that failed it does not
    resolve: see [FileReads]. *)
Definition generativePart (env : Env) (f : Blob) : InlineData :=
  let base64String := nth_error (split COMMA (readAsDataURL env f)) 1 in
  {| data := base64String;
     mimeType := or_else (blob_type f) (js "audio/mp3") |}.

Definition fileToGenerativePart (env : Env) (f : Blob) : M InlineData :=
  emit (ReadAsDataURL f) ;;;
  ret (generativePart env f).

Definition missing_key_message : jsstring :=
  js "未检测到 API Key。请检查您的环境配置。".

Definition systemInstruction_text : jsstring :=
  js "你是一位专业的视频字幕编辑器和翻译专家。".

Definition commonRequirements : jsstring :=
  js "
    任务:
    1. 仔细聆听音频内容。
    2. 生成符合标准 SubRip (.srt) 格式的字幕。
    3. 确保时间轴极其精准 (格式: HH:MM:SS,mmm)。
    4. **绝对不要**包含任何 Markdown 代码块格式（例如不要写 ```srt 或 ```）。直接输出纯文本内容。
    5. **绝对不要**在 SRT 内容前后添加任何闲聊、解释或前言。
    6. 根据语音停顿自然换行。
  ".

Definition specificInstruction (mode : TranslationMode) : jsstring :=
  match mode with
  | TRANSCRIPT_ONLY =>
    js "7. 逐字逐句转录音频中的原始内容，不要进行翻译。"
  | TO_ENGLISH =>
    js "7. 将语音内容翻译成自然、高质量的英文（English）字幕。"
  | TO_CHINESE =>
    js "7. 将语音内容翻译成自然、流畅的简体中文字幕。"
  | BILINGUAL_CN_EN =>
    js "7. 提供双语字幕。
      格式要求:
      第一行：简体中文
      第二行：English
      
      示例:
      1
      00:00:01,000 --> 00:00:04,000
      你好，很高兴见到你。
      Hello, nice to meet you.
      "
  end.

(** [`${commonRequirements}\n${specificInstruction}`] *)
Definition promptText (mode : TranslationMode) : jsstring :=
  commonRequirements ++ [LF] ++ specificInstruction mode.

Definition empty_response_message : jsstring :=
  js "Gemini 未返回任何内容。".

Definition repair_warning : jsstring :=
  js "输出内容可能不是标准的 SRT 格式，尝试自动修复...".

(** The fence clean-up:
    [text.replace(/```srt/gi, '').replace(/```/g, '').trim()] *)
Definition normalize (text : jsstring) : jsstring :=
  trim (replace fence_re [] (replace fence_srt_re [] text)).

(** The check that the text looks like SRT (it starts with a number) and
    the attempt to repair it when it does not, as a function of the
    cleaned text. *)
Definition repair (cleanText : jsstring) : jsstring :=
  if negb (test leading_digits_re cleanText) then
    match exec cue_anchor_re cleanText with
    | Some (index, _) => substring cleanText index
    | None => cleanText
    end
  else cleanText.

(** The [catch] block: the message of the error that is thrown on. *)
Definition classify (message : jsstring) : jsstring :=
  if includes (js "API key") message then js "API Key 无效或未配置。"
  else if includes (js "SAFETY") message then
    js "由于安全策略，内容被拦截。"
  else if includes (js "429") message then
    js "请求过多，请稍后再试 (Quota Exceeded)。"
  else message.

(** The request that is sent for a part and a mode. *)
Definition request_for (env : Env) (audioPart : InlineData)
           (mode : TranslationMode) : Request :=
  {| apiKey := GEMINI_API_KEY env;
     model := js "gemini-2.5-flash";
     part_inlineData := audioPart;
     part_text := promptText mode;
     systemInstruction := systemInstruction_text;
     temperature := (3, -1)%Z |}.

Definition generateSubtitles (env : Env) (audioFile : Blob)
           (mode : TranslationMode) : M jsstring :=
  if negb (truthy (GEMINI_API_KEY env)) then throw missing_key_message
  else
    audioPart <- fileToGenerativePart env audioFile ;;
    try_catch
      (emit (GenerateContent (request_for env audioPart mode)) ;;;
       response <- lift (generateContent env (request_for env audioPart mode)) ;;
       match text response with
       | None => throw empty_response_message
       | Some text =>
         if negb (truthy text) then throw empty_response_message
         else
           let cleanText := normalize text in
           if negb (test leading_digits_re cleanText) then
             emit (ConsoleWarn repair_warning) ;;;
             match exec cue_anchor_re cleanText with
             | Some (index, _) => ret (substring cleanText index)
             | None => ret cleanText
             end
           else ret cleanText
       end)
      (fun message =>
         emit (ConsoleError message) ;;;
         throw (classify message)).

(** The settled value of the promise, and the effects observed. *)
Definition settle (env : Env) (audioFile : Blob) (mode : TranslationMode)
  : Outcome jsstring := fst (generateSubtitles env audioFile mode []).

Definition effects (env : Env) (audioFile : Blob) (mode : TranslationMode)
  : list Effect := snd (generateSubtitles env audioFile mode []).

End GeminiService.

(* ------------------------------------------------------------------ *)
(** ** [src/App.tsx] *)

Module App.
Import JS Types GeminiService.

(** A call of [generateSubtitles] that [handleProcess] is awaiting, with
    the arguments it was made with. *)
Record Invocation : Type := {
  inv_file : Blob;
  inv_mode : TranslationMode
}.

(** The state hooks of the component, and what it shares with the
    browser: the object URLs created and not revoked, the serial number
    of the next one, and the invocations that have not settled. *)
Record World : Type := {
  audioState : AudioState;
  srtContent : jsstring;
  processingState : ProcessingState;
  selectedMode : TranslationMode;
  objectURLs : list ObjectURL;
  nextURL : ObjectURL;
  pending : list Invocation
}.

Definition no_audio : AudioState :=
  {| file := None; url := None; name := [] |}.

Definition not_processing : ProcessingState :=
  {| isProcessing := false; progress := []; error := None |}.

Definition init : World :=
  {| audioState := no_audio;
     srtContent := [];
     processingState := not_processing;
     selectedMode := BILINGUAL_CN_EN;
     objectURLs := [];
     nextURL := 0;
     pending := [] |}.

(** [URL.revokeObjectURL(u)] *)
Definition revoke (u : ObjectURL) (urls : list ObjectURL) : list ObjectURL :=
  remove Nat.eq_dec u urls.

Definition handleAudioSelected (w : World) (f : Blob) (n : jsstring) : World :=
  let u := nextURL w in
  {| audioState := {| file := Some f; url := Some u; name := n |};
     srtContent := [];
     processingState := not_processing;
     selectedMode := selectedMode w;
     objectURLs := u :: objectURLs w;
     nextURL := S u;
     pending := pending w |}.

Definition clearAudio (w : World) : World :=
  {| audioState := no_audio;
     srtContent := [];
     processingState := not_processing;
     selectedMode := selectedMode w;
     objectURLs := match url (audioState w) with
                   | Some u => revoke u (objectURLs w)
                   | None => objectURLs w
                   end;
     nextURL := nextURL w;
     pending := pending w |}.

(** [handleProcess] up to its [await]: the call is made and is pending. *)
Definition handleProcess (w : World) : World :=
  match file (audioState w) with
  | None => w
  | Some f =>
    {| audioState := audioState w;
       srtContent := srtContent w;
       processingState :=
         {| isProcessing := true;
            progress := js "正在上传并分析音频...";
            error := None |};
       selectedMode := selectedMode w;
       objectURLs := objectURLs w;
       nextURL := nextURL w;
       pending := pending w ++ [ {| inv_file := f; inv_mode := selectedMode w |} ] |}
  end.

(** [handleProcess] after its [await], when the promise has settled. *)
Definition resume (w : World) (settled : Outcome jsstring) : World :=
  match settled with
  | Return result =>
    {| audioState := audioState w;
       srtContent := result;
       processingState :=
         {| isProcessing := false; progress := js "完成"; error := None |};
       selectedMode := selectedMode w;
       objectURLs := objectURLs w;
       nextURL := nextURL w;
       pending := pending w |}
  | Throw message =>
    {| audioState := audioState w;
       srtContent := srtContent w;
       processingState :=
         {| isProcessing := false;
            progress := [];
            error := Some (or_else message (js "发生未知错误，请重试。")) |};
       selectedMode := selectedMode w;
       objectURLs := objectURLs w;
       nextURL := nextURL w;
       pending := pending w |}
  end.

Definition setSrtContent (w : World) (s : jsstring) : World :=
  {| audioState := audioState w;
     srtContent := s;
     processingState := processingState w;
     selectedMode := selectedMode w;
     objectURLs := objectURLs w;
     nextURL := nextURL w;
     pending := pending w |}.

Definition setSelectedMode (w : World) (m : TranslationMode) : World :=
  {| audioState := audioState w;
     srtContent := srtContent w;
     processingState := processingState w;
     selectedMode := m;
     objectURLs := objectURLs w;
     nextURL := nextURL w;
     pending := pending w |}.

(** [handleDownload] creates an object URL for the text and revokes it
    before it returns. *)
Definition handleDownload (w : World) : World :=
  if negb (truthy (srtContent w)) then w
  else
    {| audioState := audioState w;
       srtContent := srtContent w;
       processingState := processingState w;
       selectedMode := selectedMode w;
       objectURLs := revoke (nextURL w) (nextURL w :: objectURLs w);
       nextURL := S (nextURL w);
       pending := pending w |}.

(** *** What is rendered *)

(** [audioState.file && !processingState.isProcessing && !srtContent]:
    the mode selector and the button that starts the generation. *)
Definition controls_rendered (w : World) : bool :=
  match file (audioState w) with Some _ => true | None => false end
  && negb (isProcessing (processingState w))
  && negb (truthy (srtContent w)).

(** [processingState.error]: the error panel with its retry button. *)
Definition error_rendered (w : World) : bool :=
  truthy_opt (error (processingState w)).

(** [srtContent]: the result area with its buttons. *)
Definition result_rendered (w : World) : bool := truthy (srtContent w).

(** [currentFile] in [AudioInput]: the card of the file with its clear
    button, shown in place of the upload and record controls. *)
Definition file_card_rendered (w : World) : bool := truthy (name (audioState w)).

(** *** Events *)

(** What can happen to the component.  [AudioInput] reports a selection
    from the change of its file input, which it renders while it shows no
    file card, and from the stop event of its recorder, which the browser
    delivers some time after the recorder was stopped, whatever is
    rendered by then: [AudioSelected] has no guard.  A click reaches a
    handler only while the control it is bound to is rendered.
    [Settle i] is the [i]-th pending invocation settling. *)
Inductive Action : Type :=
| AudioSelected (f : Blob) (n : jsstring)
| ClickClear
| ClickGenerate
| ClickRetry
| ChangeMode (m : TranslationMode)
| ClickEmpty
| ClickDownload
| Settle (i : nat).

Definition drop_nth {A} (i : nat) (l : list A) : list A :=
  firstn i l ++ skipn (S i) l.

Definition forget (w : World) (i : nat) : World :=
  {| audioState := audioState w;
     srtContent := srtContent w;
     processingState := processingState w;
     selectedMode := selectedMode w;
     objectURLs := objectURLs w;
     nextURL := nextURL w;
     pending := drop_nth i (pending w) |}.

Definition step (env : Env) (w : World) (a : Action) : World :=
  match a with
  | AudioSelected f n => handleAudioSelected w f n
  | ClickClear => if file_card_rendered w then clearAudio w else w
  | ClickGenerate => if controls_rendered w then handleProcess w else w
  | ClickRetry => if error_rendered w then handleProcess w else w
  | ChangeMode m => if controls_rendered w then setSelectedMode w m else w
  | ClickEmpty => if result_rendered w then setSrtContent w [] else w
  | ClickDownload => if result_rendered w then handleDownload w else w
  | Settle i =>
    match nth_error (pending w) i with
    | Some inv => resume (forget w i) (settle env (inv_file inv) (inv_mode inv))
    | None => w
    end
  end.

Definition run (env : Env) (w : World) (actions : list Action) : World :=
  fold_left (step env) actions w.

(** The states of the session controller, read off the hooks. *)
Inductive Phase : Type := Idle | Ready | Processing | Done | Failed.

Definition phase (w : World) : Phase :=
  match file (audioState w) with
  | None => Idle
  | Some _ =>
    if isProcessing (processingState w) then Processing
    else if error_rendered w then Failed
    else if result_rendered w then Done
    else Ready
  end.

(** Selections and clears happen only while no invocation is pending. *)
Fixpoint undisturbed (env : Env) (w : World) (actions : list Action) : Prop :=
  match actions with
  | [] => True
  | a :: rest =>
    match a with
    | AudioSelected _ _ | ClickClear => pending w = []
    | _ => True
    end /\ undisturbed env (step env w a) rest
  end.

(** Two invariants.  While the component is processing no error is
    set; and either nothing is pending, or one invocation is and the
    component is processing. *)
Definition calm (w : World) : Prop :=
  isProcessing (processingState w) = true -> error (processingState w) = None.

Definition single (w : World) : Prop :=
  calm w
  /\ (pending w = []
      \/ exists inv, pending w = [inv]
                     /\ isProcessing (processingState w) = true).

End App.

(* ------------------------------------------------------------------ *)
(** ** Sample inputs *)

Module Samples.
Import JS Types GeminiService.

Definition clipA : Blob :=
  {| blob_type := js "audio/mpeg"; blob_bytes := [73; 68; 51]%N |}.

Definition clipB : Blob :=
  {| blob_type := js "audio/webm"; blob_bytes := [26; 69; 223; 163]%N |}.

Definition reader (f : Blob) : jsstring :=
  js "data:audio/mpeg;base64,SUQz".

(** A well-formed document of one cue. *)
Definition one_cue : jsstring :=
  js "1
00:00:01,000 --> 00:00:02,000
Hi".

(** The same after a sentence of chat. *)
Definition chatty : jsstring :=
  js "Sure, here you go:
1
00:00:01,000 --> 00:00:02,000
Hi".

(** An index followed by a space before the end of its line. *)
Definition loose : jsstring :=
  js "x1" ++ [32%N; LF] ++ js "00:00:00".

(** A fenced block with a language tag other than [srt]. *)
Definition fenced_json : jsstring :=
  js "```json
1
```".

(** No key in the environment. *)
Definition env_without_key : Env :=
  {| API_KEY := None;
     readAsDataURL := reader;
     generateContent := fun _ => Return {| text := Some one_cue |} |}.

(** A key in the environment, and a model that answers [t]. *)
Definition env_answering (t : option jsstring) : Env :=
  {| API_KEY := Some (js "key");
     readAsDataURL := reader;
     generateContent := fun _ => Return {| text := t |} |}.

(** Another well-formed document of one cue. *)
Definition other_cue : jsstring :=
  js "1
00:00:03,000 --> 00:00:04,000
Bye".

(** A key in the environment, and a model whose answer depends on the
    audio it is sent: [one_cue] for MPEG audio, [other_cue] for any
    other. *)
Definition env_transcribing : Env :=
  {| API_KEY := Some (js "key");
     readAsDataURL := reader;
     generateContent := fun req =>
       Return {| text :=
                   Some (if includes (js "mpeg")
                                     (mimeType (part_inlineData req))
                         then one_cue else other_cue) |} |}.

End Samples.

(* ------------------------------------------------------------------ *)
(** ** Notions the properties are stated with *)

Module Spec.
Import JS RegExp Types GeminiService.

(** The strings a pattern without [^] matches. *)
Inductive matches : regex -> jsstring -> Prop :=
| matches_eps : matches Eps []
| matches_chr (p : code -> bool) (c : code) :
    p c = true -> matches (Chr p) [c]
| matches_seq (r1 r2 : regex) (s1 s2 : jsstring) :
    matches r1 s1 -> matches r2 s2 -> matches (Seq r1 r2) (s1 ++ s2)
| matches_star (p : code -> bool) (s : jsstring) :
    forallb p s = true -> matches (Star p) s.

Fixpoint bol_free (r : regex) : bool :=
  match r with
  | Bol => false
  | Seq r1 r2 => bol_free r1 && bol_free r2
  | _ => true
  end.

(** A literal pattern matches at the head of the string. *)
Fixpoint matches_literal (cmp : code -> code -> bool) (l s : jsstring) : bool :=
  match l, s with
  | [], _ => true
  | _ :: _, [] => false
  | a :: l', c :: s' => cmp a c && matches_literal cmp l' s'
  end.

(** A literal pattern matches somewhere in the string. *)
Fixpoint occurs (cmp : code -> code -> bool) (l s : jsstring) : bool :=
  matches_literal cmp l s ||
  match s with
  | [] => false
  | _ :: s' => occurs cmp l s'
  end.

(** The text begins with a decimal digit. *)
Definition begins_with_digit (t : jsstring) : Prop :=
  exists c rest, t = c :: rest /\ is_digit c = true.

(** One or more decimal digits. *)
Definition digits (s : jsstring) : Prop :=
  s <> [] /\ forallb is_digit s = true.

(** Two digits, a colon, two digits, a colon, two digits. *)
Definition timestamp_prefix (s : jsstring) : Prop :=
  exists h1 h2 m1 m2 s1 s2,
    s = [h1; h2; COLON; m1; m2; COLON; s1; s2]
    /\ forallb is_digit [h1; h2; m1; m2; s1; s2] = true.

(** The anchor of the repair: digits, white space if any, a line feed,
    and the beginning of a timestamp. *)
Definition cue_anchor (a : jsstring) : Prop :=
  exists ds ws ts,
    a = ds ++ ws ++ [LF] ++ ts
    /\ digits ds /\ forallb is_space ws = true /\ timestamp_prefix ts.

Definition anchor_at (t : jsstring) (i : nat) : Prop :=
  exists a rest, skipn i t = a ++ rest /\ cue_anchor a.

(** The anchor in the words of the specification: digits, a line feed,
    and the beginning of a timestamp, with nothing in between. *)
Definition strict_cue_anchor (a : jsstring) : Prop :=
  exists ds ts, a = ds ++ [LF] ++ ts /\ digits ds /\ timestamp_prefix ts.

Definition strict_anchor_at (t : jsstring) (i : nat) : Prop :=
  exists a rest, skipn i t = a ++ rest /\ strict_cue_anchor a.

(** The pattern of the timestamp prefix, and of the anchor in the words
    of the specification. *)
Definition timestamp_re : regex :=
  Seq (twice is_digit)
 (Seq (Chr (exactly COLON))
 (Seq (twice is_digit)
 (Seq (Chr (exactly COLON))
      (twice is_digit)))).

Definition strict_anchor_re : regex :=
  Seq (plus is_digit) (Seq (Chr (exactly LF)) timestamp_re).

(** The fence clean-up in the words of the specification: a fence marker
    is three backticks with the language tag that follows, if any. *)
Definition is_tag_char (c : code) : bool :=
  (((48 <=? c) && (c <=? 57)) || ((65 <=? c) && (c <=? 90))
   || ((97 <=? c) && (c <=? 122)))%N.

Definition tagged_fence_re : regex :=
  Seq (literal exactly (js "```")) (Star is_tag_char).

Definition spec_normalize (text : jsstring) : jsstring :=
  trim (replace tagged_fence_re [] text).

(** No backtick occurs in the text. *)
Definition backtick_free (s : jsstring) : bool :=
  forallb (fun c => negb (c =? BACKTICK)%N) s.

(** The tag [srt] in some letter case. *)
Definition is_srt_tag (tag : jsstring) : bool :=
  matches_literal ignoring_case (js "srt") tag
  && Nat.eqb (List.length tag) 3.

(** The text has no white space at either end. *)
Definition trimmed (s : jsstring) : Prop :=
  (forall c rest, s = c :: rest -> is_space c = false)
  /\ (forall c front, s = front ++ [c] -> is_space c = false).

(** A worked example of a cue: an index, then, after white space, a
    timing line [HH:MM:SS,mmm --> HH:MM:SS,mmm]. *)
Definition thrice (p : code -> bool) : regex := Seq (Chr p) (twice p).

Definition timecode_re : regex :=
  Seq timestamp_re (Seq (Chr (exactly COMMA)) (thrice is_digit)).

Definition worked_example_re : regex :=
  Seq (plus is_digit)
 (Seq (plus is_space)
 (Seq timecode_re
 (Seq (literal exactly (js " --> "))
      timecode_re))).

Definition has_worked_example (s : jsstring) : bool :=
  test worked_example_re s.

End Spec.

(* ------------------------------------------------------------------ *)
(** ** Counting the effects of a call *)

Module Observations.
Import JS Types GeminiService.

Definition is_file_read (e : Effect) : bool :=
  match e with ReadAsDataURL _ => true | _ => false end.

Definition is_transport_call (e : Effect) : bool :=
  match e with GenerateContent _ => true | _ => false end.

Definition is_console (e : Effect) : bool :=
  match e with ConsoleWarn _ | ConsoleError _ => true | _ => false end.

Definition count (p : Effect -> bool) (tr : list Effect) : nat :=
  List.length (filter p tr).

(** No comma occurs in the text. *)
Definition comma_free (s : jsstring) : bool :=
  forallb (fun c => negb (c =? COMMA)%N) s.

End Observations.

(* ------------------------------------------------------------------ *)
(** ** File reads that fail *)

Module FileReads.
Import JS Types GeminiService.

(** [reader.result] when [onloadend] fires: the data URL of the file
    after a read that succeeded, [null] after one that failed. *)
Definition Reader : Type := Blob -> option jsstring.

(** A promise is fulfilled with a value, rejected with an error, or
    never settled. *)
Inductive Settled (A : Type) : Type :=
| Fulfilled (a : A)
| Rejected (message : jsstring)
| Unsettled.
Arguments Fulfilled {A} a.
Arguments Rejected {A} message.
Arguments Unsettled {A}.

Definition of_outcome {A} (o : Outcome A) : Settled A :=
  match o with
  | Return a => Fulfilled a
  | Throw message => Rejected message
  end.

(** The surroundings once the file has been read as [dataURL]. *)
Definition having_read (env : Env) (dataURL : jsstring) : Env :=
  {| API_KEY := API_KEY env;
     readAsDataURL := fun _ => dataURL;
     generateContent := generateContent env |}.

(** [generateSubtitles] with a reader that may fail.  The promise in
    [fileToGenerativePart] has no [reject] and is resolved in [onloadend]
    only: after a failed read [reader.result] is [null], [split] throws
    in the event handler before [resolve] is reached, and the promise
    stays pending; so does the [await] on it in [generateSubtitles], and
    nothing after it runs.  After a read that succeeded the service goes
    on with the data URL read. *)
Definition generateSubtitles (env : Env) (result : Reader)
           (audioFile : Blob) (mode : TranslationMode)
  : Settled jsstring * list Effect :=
  if negb (truthy (GEMINI_API_KEY env)) then (Rejected missing_key_message, [])
  else
    match result audioFile with
    | None => (Unsettled, [ReadAsDataURL audioFile])
    | Some dataURL =>
      (of_outcome (settle (having_read env dataURL) audioFile mode),
       effects (having_read env dataURL) audioFile mode)
    end.

Definition is_some {A} (o : option A) : bool :=
  match o with Some _ => true | None => false end.

(** A reader for which the second sample fails. *)
Definition reader_failing_on_webm : Reader :=
  fun f => if includes (js "webm") (blob_type f)
           then None else Some (js "data:audio/mpeg;base64,SUQz").

End FileReads.

(* ------------------------------------------------------------------ *)
(** ** Sessions of the component *)

Module Sessions.
Import JS Types GeminiService App.

(** A selection is made only while no source is selected, as when every
    source is cleared before the next one is chosen. *)
Fixpoint orderly (env : Env) (w : World) (actions : list Action) : Prop :=
  match actions with
  | [] => True
  | a :: rest =>
    match a with
    | AudioSelected _ _ => url (audioState w) = None
    | _ => True
    end /\ orderly env (step env w a) rest
  end.

(** The object URLs the state refers to. *)
Definition referenced (w : World) : list ObjectURL :=
  match url (audioState w) with Some u => [u] | None => [] end.

(** Every live object URL was issued before the next serial number. *)
Definition issued (w : World) : Prop :=
  forall u, In u (objectURLs w) -> u < nextURL w.

(** While the component is processing, no error is set, a source is
    selected and an invocation is pending. *)
Definition busy_is_backed (w : World) : Prop :=
  isProcessing (processingState w) = true ->
  error (processingState w) = None
  /\ file (audioState w) <> None
  /\ pending w <> [].

End Sessions.

(* ------------------------------------------------------------------ *)
(** ** [handleDownload] of [src/App.tsx]: the name of the file *)

Module Download.
Import JS RegExp Types App.

Definition DOT : code := 46%N.
Definition SLASH : code := 47%N.

(** [$] without the [m] flag: the continuation of the matcher that
    accepts the end of the subject only. *)
Definition at_end (e : nat) (rest : jsstring) : option nat :=
  match rest with [] => Some e | _ :: _ => None end.

Definition match_to_end (r : regex) (pos : nat) (s : jsstring) : option nat :=
  RegExp.run r pos s at_end.

(** The leftmost index at or after [pos] at which [m] matches. *)
Fixpoint search_by (m : nat -> jsstring -> option nat) (pos : nat)
         (s : jsstring) : option (nat * nat) :=
  match m pos s with
  | Some e => Some (pos, e)
  | None =>
    match s with
    | [] => None
    | _ :: s' => search_by m (S pos) s'
    end
  end.

(** [s.replace(r, by)] for a pattern [r$] without the [g] flag: the first
    match is replaced. *)
Definition replace_first_to_end (r : regex) (by_ s : jsstring) : jsstring :=
  match search_by (match_to_end r) 0 s with
  | Some (i, e) => firstn i s ++ by_ ++ skipn e s
  | None => s
  end.

(** [[^/.]] *)
Definition not_slash_dot (c : code) : bool :=
  negb ((c =? SLASH)%N || (c =? DOT)%N).

(** [/\.[^/.]+$/], without its [$] *)
Definition extension_re : regex :=
  Seq (Chr (exactly DOT)) (plus not_slash_dot).

(** [audioState.name.replace(/\.[^/.]+$/, "") + ".srt"] *)
Definition downloadName (name : jsstring) : jsstring :=
  replace_first_to_end extension_re [] name ++ js ".srt".

(** What [handleDownload] offers: nothing without a document, else the
    document under the name derived from that of the source. *)
Definition download (w : World) : option (jsstring * jsstring) :=
  if negb (truthy (srtContent w)) then None
  else Some (downloadName (name (audioState w)), srtContent w).

(** A name with a last extension: a base, a dot, and one or more code
    units that are neither a dot nor a slash. *)
Definition has_extension (name base ext : jsstring) : Prop :=
  name = base ++ DOT :: ext /\ ext <> [] /\ forallb not_slash_dot ext = true.

End Download.

(* ------------------------------------------------------------------ *)
(** ** The component [AudioInput] *)

Module AudioInput.
Import JS RegExp Types.

(** *** Numbers as text *)

Fixpoint codes_of_uint (d : Decimal.uint) : jsstring :=
  match d with
  | Decimal.Nil => []
  | Decimal.D0 d => 48%N :: codes_of_uint d
  | Decimal.D1 d => 49%N :: codes_of_uint d
  | Decimal.D2 d => 50%N :: codes_of_uint d
  | Decimal.D3 d => 51%N :: codes_of_uint d
  | Decimal.D4 d => 52%N :: codes_of_uint d
  | Decimal.D5 d => 53%N :: codes_of_uint d
  | Decimal.D6 d => 54%N :: codes_of_uint d
  | Decimal.D7 d => 55%N :: codes_of_uint d
  | Decimal.D8 d => 56%N :: codes_of_uint d
  | Decimal.D9 d => 57%N :: codes_of_uint d
  end.

(** [Number.MAX_SAFE_INTEGER], 2^53 - 1. *)
Definition MAX_SAFE_INTEGER : Z := 9007199254740991%Z.

Definition MINUS : code := 45%N.

(** [n.toString()], and [n] in a template literal, for an integer that is
    a safe integer, which is printed exactly and in full: its decimal
    digits, after a minus sign when it is negative. *)
Definition toString (n : Z) : jsstring :=
  match Z.to_int n with
  | Decimal.Pos d => codes_of_uint d
  | Decimal.Neg d => MINUS :: codes_of_uint d
  end.

(** [s.padStart(target, fill)] for a fill of one code unit. *)
Definition padStart (target : nat) (fill : code) (s : jsstring) : jsstring :=
  repeat fill (target - List.length s) ++ s.

(** [formatTime]: [Math.floor(seconds / 60)], a colon, and [seconds % 60]
    padded to two code units.  The remainder of JavaScript has the sign
    of the dividend.  For a safe integer the quotient in floating point
    is off the exact one by less than a sixtieth, so that its floor is
    the floor of the exact quotient. *)
Definition formatTime (seconds : Z) : jsstring :=
  let mins := (seconds / 60)%Z in
  let secs := Z.rem seconds 60 in
  toString mins ++ js ":" ++ padStart 2 48%N (toString secs).

(** Reading a time back, to state that the display is unambiguous. *)
Fixpoint uint_of_codes (s : jsstring) : option Decimal.uint :=
  match s with
  | [] => Some Decimal.Nil
  | c :: s' =>
    match uint_of_codes s' with
    | None => None
    | Some d =>
      if (c =? 48)%N then Some (Decimal.D0 d)
      else if (c =? 49)%N then Some (Decimal.D1 d)
      else if (c =? 50)%N then Some (Decimal.D2 d)
      else if (c =? 51)%N then Some (Decimal.D3 d)
      else if (c =? 52)%N then Some (Decimal.D4 d)
      else if (c =? 53)%N then Some (Decimal.D5 d)
      else if (c =? 54)%N then Some (Decimal.D6 d)
      else if (c =? 55)%N then Some (Decimal.D7 d)
      else if (c =? 56)%N then Some (Decimal.D8 d)
      else if (c =? 57)%N then Some (Decimal.D9 d)
      else None
    end
  end.

Definition read_number (s : jsstring) : option Z :=
  match s with
  | [] => None
  | _ :: _ => option_map Z.of_uint (uint_of_codes s)
  end.

Definition read_time (s : jsstring) : option Z :=
  match split COLON s with
  | [m; sec] =>
    match read_number m, read_number sec with
    | Some a, Some b => Some (a * 60 + b)%Z
    | _, _ => None
    end
  | _ => None
  end.

(** *** The name of a recording *)

(** [/:/g] *)
Definition colon_re : regex := Chr (exactly COLON).

(** The name given to a recording, from [new Date().toISOString()]:
    [`录音-${iso.slice(0, 19).replace(/:/g, '-')}.webm`] *)
Definition recordingFileName (iso : jsstring) : jsstring :=
  js "录音-" ++ replace colon_re (js "-") (firstn 19 iso) ++ js ".webm".

(** *** The state of the component and its handlers *)

(** [new Blob(parts, { type })] *)
Definition new_Blob (parts : list Blob) (type : jsstring) : Blob :=
  {| blob_type := type; blob_bytes := List.concat (map blob_bytes parts) |}.

(** [blob.size] *)
Definition size (b : Blob) : nat := List.length (blob_bytes b).

(** The hooks and refs of the component, its prop [currentFile], and what
    it shares with the browser and with its parent: the intervals of the
    window that are live and the handle of the next one (handles are
    positive), the recorders asked to stop, the streams whose tracks were
    stopped, the calls of [onAudioSelected] in order, and the alerts. *)
Record State : Type := {
  currentFile : jsstring;
  isRecording : bool;
  recordingTime : nat;
  mediaRecorderRef : option nat;
  chunksRef : list Blob;
  timerIntervalRef : option nat;
  intervals : list nat;
  nextHandle : nat;
  stopRequests : list nat;
  endedStreams : list nat;
  reported : list (Blob * jsstring);
  alerts : nat
}.

Definition mounted : State :=
  {| currentFile := [];
     isRecording := false;
     recordingTime := 0;
     mediaRecorderRef := None;
     chunksRef := [];
     timerIntervalRef := None;
     intervals := [];
     nextHandle := 1;
     stopRequests := [];
     endedStreams := [];
     reported := [];
     alerts := 0 |}.

(** [handleFileChange]: the first file of the input, if any, is reported
    under its own name. *)
Definition handleFileChange (st : State) (files : list (Blob * jsstring)) : State :=
  match files with
  | [] => st
  | f :: _ =>
    {| currentFile := currentFile st;
       isRecording := isRecording st;
       recordingTime := recordingTime st;
       mediaRecorderRef := mediaRecorderRef st;
       chunksRef := chunksRef st;
       timerIntervalRef := timerIntervalRef st;
       intervals := intervals st;
       nextHandle := nextHandle st;
       stopRequests := stopRequests st;
       endedStreams := endedStreams st;
       reported := reported st ++ [f];
       alerts := alerts st |}
  end.

(** [startRecording] once [getUserMedia] has resolved with a stream: a
    recorder is made for the stream (it is named after it), the chunks
    are emptied, the recorder is started, and the counter is reset and
    driven by a new interval. *)
Definition startRecording_granted (st : State) (stream : nat) : State :=
  {| currentFile := currentFile st;
     isRecording := true;
     recordingTime := 0;
     mediaRecorderRef := Some stream;
     chunksRef := [];
     timerIntervalRef := Some (nextHandle st);
     intervals := nextHandle st :: intervals st;
     nextHandle := S (nextHandle st);
     stopRequests := stopRequests st;
     endedStreams := endedStreams st;
     reported := reported st;
     alerts := alerts st |}.

(** [startRecording] when [getUserMedia] has rejected: an alert. *)
Definition startRecording_denied (st : State) : State :=
  {| currentFile := currentFile st;
     isRecording := isRecording st;
     recordingTime := recordingTime st;
     mediaRecorderRef := mediaRecorderRef st;
     chunksRef := chunksRef st;
     timerIntervalRef := timerIntervalRef st;
     intervals := intervals st;
     nextHandle := nextHandle st;
     stopRequests := stopRequests st;
     endedStreams := endedStreams st;
     reported := reported st;
     alerts := S (alerts st) |}.

(** [mediaRecorder.ondataavailable] *)
Definition ondataavailable (st : State) (data : Blob) : State :=
  if Nat.ltb 0 (size data) then
    {| currentFile := currentFile st;
       isRecording := isRecording st;
       recordingTime := recordingTime st;
       mediaRecorderRef := mediaRecorderRef st;
       chunksRef := chunksRef st ++ [data];
       timerIntervalRef := timerIntervalRef st;
       intervals := intervals st;
       nextHandle := nextHandle st;
       stopRequests := stopRequests st;
       endedStreams := endedStreams st;
       reported := reported st;
       alerts := alerts st |}
  else st.

(** [mediaRecorder.onstop] of the recorder made for [stream], at the date
    [iso]: the chunks are joined and reported, the tracks are stopped. *)
Definition onstop (st : State) (stream : nat) (iso : jsstring) : State :=
  {| currentFile := currentFile st;
     isRecording := isRecording st;
     recordingTime := recordingTime st;
     mediaRecorderRef := mediaRecorderRef st;
     chunksRef := chunksRef st;
     timerIntervalRef := timerIntervalRef st;
     intervals := intervals st;
     nextHandle := nextHandle st;
     stopRequests := stopRequests st;
     endedStreams := endedStreams st ++ [stream];
     reported := reported st
                 ++ [(new_Blob (chunksRef st) (js "audio/webm"),
                      recordingFileName iso)];
     alerts := alerts st |}.

(** [clearInterval(h)] *)
Definition clearInterval (h : nat) (live : list nat) : list nat :=
  remove Nat.eq_dec h live.

(** [recorder.stop()]: the recorder is asked to stop. *)
Definition recorder_stop (st : State) (recorder : nat) : State :=
  {| currentFile := currentFile st;
     isRecording := isRecording st;
     recordingTime := recordingTime st;
     mediaRecorderRef := mediaRecorderRef st;
     chunksRef := chunksRef st;
     timerIntervalRef := timerIntervalRef st;
     intervals := intervals st;
     nextHandle := nextHandle st;
     stopRequests := stopRequests st ++ [recorder];
     endedStreams := endedStreams st;
     reported := reported st;
     alerts := alerts st |}.

(** [stopRecording] as a render makes it.  The handler reads the refs as
    they are when it runs, and [isRecording] as the render that made it
    saw it, [seen]: the constant of that render, which [setIsRecording]
    does not change. *)
Definition stopRecording (seen : bool) (st : State) : State :=
  match mediaRecorderRef st with
  | Some recorder =>
    if seen then
      {| currentFile := currentFile st;
         isRecording := false;
         recordingTime := recordingTime st;
         mediaRecorderRef := mediaRecorderRef st;
         chunksRef := chunksRef st;
         timerIntervalRef := None;
         intervals := match timerIntervalRef st with
                      | Some h => clearInterval h (intervals st)
                      | None => intervals st
                      end;
         nextHandle := nextHandle st;
         stopRequests := stopRequests st ++ [recorder];
         endedStreams := endedStreams st;
         reported := reported st;
         alerts := alerts st |}
    else st
  | None => st
  end.

(** The callback of the interval: [setRecordingTime(prev => prev + 1)]. *)
Definition tick (st : State) : State :=
  {| currentFile := currentFile st;
     isRecording := isRecording st;
     recordingTime := S (recordingTime st);
     mediaRecorderRef := mediaRecorderRef st;
     chunksRef := chunksRef st;
     timerIntervalRef := timerIntervalRef st;
     intervals := intervals st;
     nextHandle := nextHandle st;
     stopRequests := stopRequests st;
     endedStreams := endedStreams st;
     reported := reported st;
     alerts := alerts st |}.

(** The parent renders the component with a new [currentFile]. *)
Definition render (st : State) (current : jsstring) : State :=
  {| currentFile := current;
     isRecording := isRecording st;
     recordingTime := recordingTime st;
     mediaRecorderRef := mediaRecorderRef st;
     chunksRef := chunksRef st;
     timerIntervalRef := timerIntervalRef st;
     intervals := intervals st;
     nextHandle := nextHandle st;
     stopRequests := stopRequests st;
     endedStreams := endedStreams st;
     reported := reported st;
     alerts := alerts st |}.

(** The upload and record controls are rendered while no file card is
    shown and nothing is being recorded; the stop button while no file
    card is shown and a recording is. *)
Definition upload_rendered (st : State) : bool :=
  negb (truthy (currentFile st)) && negb (isRecording st).

Definition stop_rendered (st : State) : bool :=
  negb (truthy (currentFile st)) && isRecording st.

(** What can happen to the component: a render by the parent, a change of
    the file input, the permission for the microphone granted (with the
    stream) or denied, a chunk of data from a recorder, the stop event of
    the recorder of a stream, a click on the stop button, and the
    callback of an interval, which runs only while the interval is
    live. *)
Inductive Event : Type :=
| Render (current : jsstring)
| FileChange (files : list (Blob * jsstring))
| Granted (stream : nat)
| Denied
| DataAvailable (data : Blob)
| Stopped (stream : nat) (iso : jsstring)
| ClickStop
| Tick (h : nat).

Definition step (st : State) (ev : Event) : State :=
  match ev with
  | Render current => render st current
  | FileChange files =>
    if upload_rendered st then handleFileChange st files else st
  | Granted stream => startRecording_granted st stream
  | Denied => startRecording_denied st
  | DataAvailable data => ondataavailable st data
  | Stopped stream iso => onstop st stream iso
  | ClickStop =>
    if stop_rendered st then stopRecording (isRecording st) st else st
  | Tick h => if existsb (Nat.eqb h) (intervals st) then tick st else st
  end.

Definition run (st : State) (events : list Event) : State :=
  fold_left step events st.

(** The data of the chunks that arrive in a run of events. *)
Fixpoint arrived (events : list Event) : list (list N) :=
  match events with
  | [] => []
  | DataAvailable data :: rest => blob_bytes data :: arrived rest
  | _ :: rest => arrived rest
  end.

(** No recording is started in a run of events. *)
Fixpoint no_start (events : list Event) : bool :=
  match events with
  | [] => true
  | Granted _ :: _ => false
  | _ :: rest => no_start rest
  end.

(** A recording is started only while no interval is held. *)
Fixpoint one_at_a_time (st : State) (events : list Event) : Prop :=
  match events with
  | [] => True
  | ev :: rest =>
    match ev with
    | Granted _ => timerIntervalRef st = None
    | _ => True
    end /\ one_at_a_time (step st ev) rest
  end.

(** The intervals the component holds a handle of. *)
Definition held (st : State) : list nat :=
  match timerIntervalRef st with Some h => [h] | None => [] end.

(** Three chunks of data, the second one empty. *)
Definition clipA_chunk : Blob :=
  {| blob_type := js "audio/webm"; blob_bytes := [1; 2; 3]%N |}.

Definition empty_chunk : Blob :=
  {| blob_type := js "audio/webm"; blob_bytes := [] |}.

Definition clipB_chunk : Blob :=
  {| blob_type := js "audio/webm"; blob_bytes := [4; 5]%N |}.

End AudioInput.

(* ------------------------------------------------------------------ *)
(** ** The prompt, in the words it is made of *)

Module PromptSpec.
Import JS Types.

(** Lines set out one under the other: each comes after a line feed and
    an indentation of so many spaces. *)
Definition set_out (indent : nat) (lines : list jsstring) : jsstring :=
  List.concat (map (fun l => LF :: repeat 32%N indent ++ l) lines).

(** The heading of the common block and its six constraints: listen to
    the whole audio, produce SubRip subtitles, exact time codes
    [HH:MM:SS,mmm], no Markdown code fence, no text before or after the
    subtitles, line breaks at the pauses of the speech. *)
Definition heading : jsstring := js "任务:".

Definition constraints : list jsstring :=
  [ js "1. 仔细聆听音频内容。";
    js "2. 生成符合标准 SubRip (.srt) 格式的字幕。";
    js "3. 确保时间轴极其精准 (格式: HH:MM:SS,mmm)。";
    js "4. **绝对不要**包含任何 Markdown 代码块格式（例如不要写 ```srt 或 ```）。直接输出纯文本内容。";
    js "5. **绝对不要**在 SRT 内容前后添加任何闲聊、解释或前言。";
    js "6. 根据语音停顿自然换行。" ].

(** Item 7 for each mode, as its first line and the lines set out under
    it: transcribe and do not translate; translate into English;
    translate into Simplified Chinese; two lines for each cue, Chinese
    then English, with an example of a cue. *)
Definition item7 (mode : TranslationMode) : jsstring * list jsstring :=
  match mode with
  | TRANSCRIPT_ONLY =>
    (js "7. 逐字逐句转录音频中的原始内容，不要进行翻译。", [])
  | TO_ENGLISH =>
    (js "7. 将语音内容翻译成自然、高质量的英文（English）字幕。", [])
  | TO_CHINESE =>
    (js "7. 将语音内容翻译成自然、流畅的简体中文字幕。", [])
  | BILINGUAL_CN_EN =>
    (js "7. 提供双语字幕。",
     [ js "格式要求:";
       js "第一行：简体中文";
       js "第二行：English";
       [];
       js "示例:";
       js "1";
       js "00:00:01,000 --> 00:00:04,000";
       js "你好，很高兴见到你。";
       js "Hello, nice to meet you.";
       [] ])
  end.

(** The words that tell the clauses apart: not to translate, English as
    the target, Simplified Chinese as the target, subtitles in two
    languages. *)
Definition forbids_translation (clause : jsstring) : bool :=
  includes (js "不要进行翻译") clause.

Definition targets_english (clause : jsstring) : bool :=
  includes (js "英文") clause.

Definition targets_chinese (clause : jsstring) : bool :=
  includes (js "简体中文字幕") clause.

Definition asks_for_two_languages (clause : jsstring) : bool :=
  includes (js "双语字幕") clause
  && includes (js "第一行：简体中文") clause
  && includes (js "第二行：English") clause.

End PromptSpec.

(* ------------------------------------------------------------------ *)
(** ** Taking the occurrences of a literal out of a text *)

Module Removal.
Import JS RegExp Spec.

(** [removed cmp l s r]: [r] is [s] without the occurrences of the literal
    [l], taken from the left and not overlapping: at each place either
    [l] matches and the code units it matches are dropped, or it does not
    and the code unit at that place is kept. *)
Inductive removed (cmp : code -> code -> bool) (l : jsstring)
  : jsstring -> jsstring -> Prop :=
| removed_nil : removed cmp l [] []
| removed_hit (s r : jsstring) :
    l <> [] ->
    matches_literal cmp l s = true ->
    removed cmp l (skipn (List.length l) s) r ->
    removed cmp l s r
| removed_miss (c : code) (s r : jsstring) :
    matches_literal cmp l (c :: s) = false ->
    removed cmp l s r ->
    removed cmp l (c :: s) (c :: r).

(** [cleaned s t]: [t] is what is left of [s] when the fences with the tag
    [srt], in any letter case, are taken out, then the fences, then the
    white space at both ends. *)
Definition cleaned (s t : jsstring) : Prop :=
  exists a b lead trail,
    removed ignoring_case (js "```srt") s a
    /\ removed exactly (js "```") a b
    /\ b = lead ++ t ++ trail
    /\ forallb is_space lead = true
    /\ forallb is_space trail = true
    /\ trimmed t.

End Removal.

(* ------------------------------------------------------------------ *)
(** ** Facts about strings *)

Module JSFacts.
Import JS.

Lemma startsWith_app (p post : jsstring) : startsWith p (p ++ post) = true.
Proof.
  induction p as [|a p IH]; simpl; [reflexivity|].
  now rewrite N.eqb_refl, IH.
Qed.

Lemma startsWith_elim (p s : jsstring) :
  startsWith p s = true -> exists post, s = p ++ post.
Proof.
  revert s; induction p as [|a p IH]; intros s H.
  - now exists s.
  - destruct s as [|c s]; simpl in H; [discriminate|].
    apply andb_true_iff in H as [Hc Hs].
    apply N.eqb_eq in Hc; subst c.
    destruct (IH _ Hs) as [post ->].
    now exists post.
Qed.

Lemma includes_intro (p pre post : jsstring) :
  includes p (pre ++ p ++ post) = true.
Proof.
  induction pre as [|c pre IH].
  - simpl app. destruct (p ++ post) eqn:E; simpl; rewrite <- E;
      now rewrite startsWith_app.
  - simpl. rewrite IH. apply orb_true_r.
Qed.

Lemma includes_elim (p s : jsstring) :
  includes p s = true -> exists pre post, s = pre ++ p ++ post.
Proof.
  induction s as [|c s IH]; simpl; intros H.
  - rewrite orb_false_r in H. apply startsWith_elim in H as [post E].
    now exists [], post.
  - apply orb_true_iff in H as [H|H].
    + apply startsWith_elim in H as [post E]. now exists [], post.
    + destruct (IH H) as (pre & post & ->). now exists (c :: pre), post.
Qed.

(** A string without an occurrence of [p] has none in its parts. *)
Lemma includes_part (p a s z : jsstring) :
  includes p (a ++ s ++ z) = false -> includes p s = false.
Proof.
  intros H. destruct (includes p s) eqn:E; [|reflexivity].
  apply includes_elim in E as (pre & post & ->).
  rewrite <- H. symmetry.
  replace (a ++ (pre ++ p ++ post) ++ z) with ((a ++ pre) ++ p ++ (post ++ z))
    by now rewrite <- !app_assoc.
  apply includes_intro.
Qed.

Lemma includes_tail (p : jsstring) (c : code) (s : jsstring) :
  includes p (c :: s) = false -> includes p s = false.
Proof.
  intros H. apply (includes_part p [c] s []). simpl. now rewrite app_nil_r.
Qed.

Lemma includes_head (p : jsstring) (s : jsstring) :
  includes p s = false -> startsWith p s = false.
Proof.
  destruct s; simpl; intros H; apply orb_false_iff in H; tauto.
Qed.

Lemma trimStart_suffix (s : jsstring) :
  exists pre, s = pre ++ trimStart s /\ forallb is_space pre = true.
Proof.
  induction s as [|c s (pre & E & Hpre)]; simpl.
  - now exists [].
  - destruct (is_space c) eqn:Hc.
    + exists (c :: pre). simpl. rewrite Hc, Hpre. now rewrite <- E.
    + now exists [].
Qed.

Lemma trimEnd_prefix (s : jsstring) :
  exists post, s = trimEnd s ++ post /\ forallb is_space post = true.
Proof.
  induction s as [|c s (post & E & Hpost)]; simpl.
  - now exists [].
  - destruct (trimEnd s) as [|x r] eqn:Hr.
    + destruct (is_space c) eqn:Hc.
      * exists (c :: post). simpl in *. rewrite Hc, Hpost. now subst s.
      * exists post. simpl in *. now subst s.
    + exists post. split; [|assumption]. simpl. f_equal. exact E.
Qed.

Lemma trim_part (s : jsstring) :
  exists pre post, s = pre ++ trim s ++ post.
Proof.
  destruct (trimStart_suffix s) as (pre & E & _).
  destruct (trimEnd_prefix (trimStart s)) as (post & E' & _).
  exists pre, post. unfold trim. now rewrite <- E', <- E.
Qed.

Lemma trimEnd_idem (s : jsstring) : trimEnd (trimEnd s) = trimEnd s.
Proof.
  induction s as [|c s IH]; simpl; [reflexivity|].
  destruct (trimEnd s) as [|x r] eqn:Hr.
  - destruct (is_space c) eqn:Hc; simpl; [reflexivity|]. now rewrite Hc.
  - change (trimEnd (c :: x :: r)) with
      (match trimEnd (x :: r) with
       | [] => if is_space c then [] else [c]
       | r' => c :: r'
       end).
    now rewrite IH.
Qed.

Lemma trimStart_head (c : code) (s : jsstring) :
  is_space c = false -> trimStart (c :: s) = c :: s.
Proof. intros H; simpl; now rewrite H. Qed.

Lemma trimEnd_head (c : code) (s : jsstring) :
  is_space c = false -> exists r, trimEnd (c :: s) = c :: r.
Proof.
  intros H; simpl. destruct (trimEnd s); rewrite ?H; eauto.
Qed.

Lemma trimStart_cases (s : jsstring) :
  trimStart s = [] \/ exists c r, trimStart s = c :: r /\ is_space c = false.
Proof.
  induction s as [|c s IH]; simpl; [now left|].
  destruct (is_space c) eqn:Hc; [assumption|].
  right; eauto.
Qed.

Lemma trimStart_trim (s : jsstring) : trimStart (trim s) = trim s.
Proof.
  unfold trim. destruct (trimStart_cases s) as [->|(c & r & -> & Hc)].
  - reflexivity.
  - destruct (trimEnd_head c r Hc) as [r' ->]. now apply trimStart_head.
Qed.

Lemma trim_idem (s : jsstring) : trim (trim s) = trim s.
Proof.
  unfold trim at 1. rewrite trimStart_trim. unfold trim. apply trimEnd_idem.
Qed.

Lemma skipn_part {A} (i : nat) (s : list A) : exists pre, s = pre ++ skipn i s.
Proof. exists (firstn i s). symmetry. apply firstn_skipn. Qed.

End JSFacts.

(* ------------------------------------------------------------------ *)
(** ** Facts about the matcher *)

Module RegExpFacts.
Import JS RegExp Spec JSFacts.

(** *** Literal patterns *)

Lemma run_literal (cmp : code -> code -> bool) (l : jsstring) :
  forall pos s k,
    run (literal cmp l) pos s k =
    if matches_literal cmp l s
    then k (pos + List.length l) (skipn (List.length l) s)
    else None.
Proof.
  induction l as [|a l IH]; intros pos s k; simpl.
  - now rewrite Nat.add_0_r.
  - destruct s as [|c s]; [reflexivity|].
    destruct (cmp a c); simpl; [|reflexivity].
    rewrite IH. now rewrite Nat.add_succ_r.
Qed.

Lemma match_at_literal (cmp : code -> code -> bool) (l : jsstring) pos s :
  match_at (literal cmp l) pos s =
  if matches_literal cmp l s then Some (pos + List.length l) else None.
Proof. unfold match_at. apply run_literal. Qed.

(** Removing the matches of a literal does not depend on the position
    the scan is at. *)
Lemma replace_from_literal_pos cmp (l : jsstring) :
  forall s skip pos,
    replace_from (literal cmp l) [] skip pos s =
    replace_from (literal cmp l) [] skip 0 s.
Proof.
  induction s as [|c s IH]; intros skip pos.
  - simpl. destruct skip; [|reflexivity].
    now destruct (match_at _ pos []), (match_at _ 0 []).
  - simpl. destruct skip as [|n].
    + rewrite !match_at_literal.
      destruct (matches_literal cmp l (c :: s)).
      * replace (pos + List.length l - pos) with (List.length l) by lia.
        simpl. destruct (List.length l); simpl;
          now rewrite (IH _ (S pos)), (IH _ 1).
      * simpl. now rewrite (IH _ (S pos)), (IH _ 1).
    + now rewrite (IH _ (S pos)), (IH _ 1).
Qed.

(** [cut cmp l skip s]: the matches of the literal [l] removed from [s],
    after dropping [skip] code units. *)
Abbreviation cut cmp l skip s := (replace_from (literal cmp l) [] skip 0 s).

Lemma cut_nil cmp l skip : cut cmp l skip [] = [].
Proof. simpl. destruct skip; [|reflexivity]. now destruct (match_at _ 0 []). Qed.

Lemma cut_skip cmp l n c s : cut cmp l (S n) (c :: s) = cut cmp l n s.
Proof. simpl. apply replace_from_literal_pos. Qed.

Lemma cut_hit cmp a l c s :
  matches_literal cmp (a :: l) (c :: s) = true ->
  cut cmp (a :: l) 0 (c :: s) = cut cmp (a :: l) (List.length l) s.
Proof.
  intros H. cbn [replace_from]. rewrite match_at_literal, H.
  cbn [List.length Nat.add Nat.sub app]. apply replace_from_literal_pos.
Qed.

Lemma cut_miss cmp l c s :
  matches_literal cmp l (c :: s) = false ->
  cut cmp l 0 (c :: s) = c :: cut cmp l 0 s.
Proof.
  intros H. cbn [replace_from]. rewrite match_at_literal, H.
  f_equal. apply replace_from_literal_pos.
Qed.

(** Where the literal does not occur, nothing is removed. *)
Lemma cut_absent cmp a l s :
  occurs cmp (a :: l) s = false -> cut cmp (a :: l) 0 s = s.
Proof.
  induction s as [|c s IH]; intros H.
  - apply cut_nil.
  - simpl in H. apply orb_false_iff in H as [Hm Ho].
    rewrite cut_miss by exact Hm. f_equal. now apply IH.
Qed.

Lemma matches_literal_exactly (l s : jsstring) :
  matches_literal exactly l s = startsWith l s.
Proof.
  revert s; induction l as [|a l IH]; intros [|c s]; simpl; try reflexivity.
  now rewrite IH.
Qed.

Lemma occurs_exactly (l s : jsstring) : occurs exactly l s = includes l s.
Proof.
  induction s as [|c s IH]; simpl; rewrite matches_literal_exactly;
    [reflexivity|now rewrite IH].
Qed.

End RegExpFacts.

(* ------------------------------------------------------------------ *)
(** ** Facts about the fence clean-up *)

Module NormalizeFacts.
Import JS RegExp Spec JSFacts RegExpFacts GeminiService.

Lemma fence_literal : js "```" = [BACKTICK; BACKTICK; BACKTICK].
Proof. reflexivity. Qed.

Lemma fence_srt_literal :
  js "```srt" = [BACKTICK; BACKTICK; BACKTICK; 115; 114; 116]%N.
Proof. reflexivity. Qed.

Lemma canonicalize_backtick (c : code) :
  ignoring_case BACKTICK c = true -> c = BACKTICK.
Proof.
  unfold ignoring_case. change (canonicalize BACKTICK) with 96%N.
  unfold canonicalize, BACKTICK.
  destruct ((97 <=? c) && (c <=? 122))%N eqn:E; intros H;
    apply N.eqb_eq in H.
  - apply andb_true_iff in E as [E1 E2].
    apply N.leb_le in E1. apply N.leb_le in E2. lia.
  - now symmetry.
Qed.

(** A match of [/```srt/gi] begins with a fence. *)
Lemma fence_srt_begins_with_fence (s : jsstring) :
  matches_literal ignoring_case (js "```srt") s = true ->
  startsWith (js "```") s = true.
Proof.
  rewrite fence_srt_literal, fence_literal.
  destruct s as [|c1 [|c2 [|c3 s]]]; simpl; try discriminate;
    rewrite ?andb_false_r; try discriminate.
  intros H.
  apply andb_true_iff in H as [H1 H].
  apply andb_true_iff in H as [H2 H].
  apply andb_true_iff in H as [H3 _].
  apply canonicalize_backtick in H1, H2, H3. subst.
  reflexivity.
Qed.

Lemma no_fence_no_fence_srt (s : jsstring) :
  includes (js "```") s = false ->
  occurs ignoring_case (js "```srt") s = false.
Proof.
  induction s as [|c s IH]; intros H.
  - reflexivity.
  - cbn [occurs]. rewrite (IH (includes_tail _ _ _ H)), orb_false_r.
    apply includes_head in H.
    destruct (matches_literal ignoring_case (js "```srt") (c :: s)) eqn:E;
      [|reflexivity].
    apply fence_srt_begins_with_fence in E. congruence.
Qed.

(** Text without a fence passes both replacements unchanged. *)
Lemma replace_fence_srt_absent (s : jsstring) :
  includes (js "```") s = false -> replace fence_srt_re [] s = s.
Proof.
  intros H. unfold replace, fence_srt_re. rewrite fence_srt_literal.
  apply cut_absent. rewrite <- fence_srt_literal.
  now apply no_fence_no_fence_srt.
Qed.

Lemma replace_fence_absent (s : jsstring) :
  includes (js "```") s = false -> replace fence_re [] s = s.
Proof.
  intros H. unfold replace, fence_re. rewrite fence_literal.
  apply cut_absent. rewrite occurs_exactly. now rewrite <- fence_literal.
Qed.

(** The second replacement: its equations. *)
Lemma replace_fence_nil : replace fence_re [] [] = [].
Proof. reflexivity. Qed.

Lemma replace_fence_hit (s : jsstring) :
  replace fence_re [] (BACKTICK :: BACKTICK :: BACKTICK :: s)
  = replace fence_re [] s.
Proof.
  unfold replace, fence_re. rewrite fence_literal.
  rewrite cut_hit by reflexivity. cbn [List.length].
  now rewrite !cut_skip.
Qed.

Lemma replace_fence_miss (c : code) (s : jsstring) :
  startsWith (js "```") (c :: s) = false ->
  replace fence_re [] (c :: s) = c :: replace fence_re [] s.
Proof.
  intros H. unfold replace, fence_re.
  apply cut_miss. now rewrite matches_literal_exactly.
Qed.

Lemma startsWith_fence_cons (c : code) (s : jsstring) :
  startsWith (js "```") (c :: s)
  = (BACKTICK =? c)%N && startsWith [BACKTICK; BACKTICK] s.
Proof. reflexivity. Qed.

(** Text that does not begin with two backticks does not after the
    replacement either. *)
Lemma replace_fence_head (s : jsstring) :
  startsWith [BACKTICK; BACKTICK] s = false ->
  startsWith [BACKTICK; BACKTICK] (replace fence_re [] s) = false.
Proof.
  destruct s as [|c [|d r]]; intros H; try reflexivity.
  - rewrite replace_fence_miss by (simpl; now rewrite !andb_false_r).
    simpl. now rewrite andb_false_r.
  - cbn [startsWith] in H.
    assert (Hc : startsWith (js "```") (c :: d :: r) = false).
    { rewrite fence_literal. cbn [startsWith].
      destruct (BACKTICK =? c)%N, (BACKTICK =? d)%N; simpl in *;
        reflexivity || discriminate. }
    rewrite replace_fence_miss by exact Hc.
    cbn [startsWith]. destruct (BACKTICK =? c)%N; [|reflexivity].
    assert (Hd : startsWith (js "```") (d :: r) = false).
    { rewrite fence_literal. cbn [startsWith].
      destruct (BACKTICK =? d)%N; simpl in *; reflexivity || discriminate. }
    rewrite replace_fence_miss by exact Hd.
    cbn [startsWith]. destruct (BACKTICK =? d)%N; simpl in *;
      reflexivity || discriminate.
Qed.

(** After the second replacement no fence is left. *)
Lemma replace_fence_clean_bounded (n : nat) :
  forall s, List.length s <= n ->
            includes (js "```") (replace fence_re [] s) = false.
Proof.
  induction n as [|n IH]; intros s Hn.
  - destruct s; [reflexivity|simpl in Hn; lia].
  - destruct s as [|c s]; [reflexivity|].
    destruct (startsWith (js "```") (c :: s)) eqn:E.
    + apply startsWith_elim in E as [rest E].
      rewrite fence_literal in E. simpl in E. rewrite E.
      rewrite replace_fence_hit. apply IH.
      apply (f_equal (@List.length _)) in E. simpl in *. lia.
    + rewrite replace_fence_miss by exact E.
      cbn [includes]. rewrite IH by (simpl in Hn; lia).
      rewrite orb_false_r, startsWith_fence_cons.
      rewrite startsWith_fence_cons in E.
      destruct (BACKTICK =? c)%N; [|reflexivity].
      simpl in *. now apply replace_fence_head.
Qed.

Lemma replace_fence_clean (s : jsstring) :
  includes (js "```") (replace fence_re [] s) = false.
Proof. now apply (replace_fence_clean_bounded (List.length s)). Qed.

Lemma trim_clean (s : jsstring) :
  includes (js "```") s = false -> includes (js "```") (trim s) = false.
Proof.
  intros H. destruct (trim_part s) as (pre & post & E).
  rewrite E in H. now apply includes_part in H.
Qed.

Lemma normalize_clean (s : jsstring) :
  includes (js "```") (normalize s) = false.
Proof. apply trim_clean, replace_fence_clean. Qed.

End NormalizeFacts.

(* ------------------------------------------------------------------ *)
(** ** The matcher against the strings a pattern denotes *)

Module MatcherFacts.
Import JS RegExp Spec JSFacts.

Lemma matches_seq_inv r1 r2 s :
  matches (Seq r1 r2) s ->
  exists s1 s2, s = s1 ++ s2 /\ matches r1 s1 /\ matches r2 s2.
Proof. inversion 1; subst; eauto. Qed.

Lemma matches_chr_inv p s :
  matches (Chr p) s -> exists c, s = [c] /\ p c = true.
Proof. inversion 1; subst; eauto. Qed.

Lemma matches_star_inv p s : matches (Star p) s -> forallb p s = true.
Proof. now inversion 1. Qed.

Lemma matches_eps_inv s : matches Eps s -> s = [].
Proof. now inversion 1. Qed.

Lemma star_spec (p : code -> bool) :
  forall s pos k,
    star p pos s k <> None <->
    exists s1 s2, s = s1 ++ s2 /\ forallb p s1 = true
                  /\ k (pos + List.length s1) s2 <> None.
Proof.
  induction s as [|c s IH]; intros pos k; simpl.
  - split.
    + intros H. exists [], []. simpl. now rewrite Nat.add_0_r.
    + intros (s1 & s2 & E & _ & H).
      symmetry in E. apply app_eq_nil in E as [-> ->].
      simpl in H. now rewrite Nat.add_0_r in H.
  - split.
    + intros H. destruct (p c) eqn:Hc.
      * destruct (star p (S pos) s k) eqn:Hs.
        -- assert (Hn : star p (S pos) s k <> None) by congruence.
           apply IH in Hn as (s1 & s2 & -> & Hp & Hk).
           exists (c :: s1), s2. simpl. rewrite Hc, Hp.
           rewrite Nat.add_succ_r. auto.
        -- exists [], (c :: s). simpl. now rewrite Nat.add_0_r.
      * exists [], (c :: s). simpl. now rewrite Nat.add_0_r.
    + intros (s1 & s2 & E & Hp & Hk). destruct s1 as [|c1 s1].
      * simpl in E, Hk. subst s2. rewrite Nat.add_0_r in Hk.
        destruct (p c); [|assumption].
        now destruct (star p (S pos) s k).
      * simpl in E, Hp, Hk. injection E as <- ->.
        apply andb_true_iff in Hp as [Hc Hp]. rewrite Hc.
        rewrite Nat.add_succ_r in Hk.
        assert (Hn : star p (S pos) (s1 ++ s2) k <> None).
        { apply IH. eauto. }
        now destruct (star p (S pos) (s1 ++ s2) k).
Qed.

(** The matcher succeeds exactly when a prefix of the subject is a string
    of the pattern and the continuation accepts what follows. *)
Lemma run_spec (r : regex) :
  bol_free r = true ->
  forall pos s k,
    run r pos s k <> None <->
    exists s1 s2, s = s1 ++ s2 /\ matches r s1
                  /\ k (pos + List.length s1) s2 <> None.
Proof.
  induction r as [| |p|r1 IH1 r2 IH2|p]; intros Hb pos s k; simpl in *.
  - split.
    + intros H. exists [], s. simpl. rewrite Nat.add_0_r.
      repeat split; [constructor|assumption].
    + intros (s1 & s2 & -> & Hm & Hk). apply matches_eps_inv in Hm. subst.
      simpl in Hk. now rewrite Nat.add_0_r in Hk.
  - discriminate.
  - split.
    + intros H. destruct s as [|c s]; [congruence|].
      destruct (p c) eqn:Hc; [|congruence].
      exists [c], s. simpl. rewrite Nat.add_1_r.
      repeat split; [now constructor|assumption].
    + intros (s1 & s2 & -> & Hm & Hk).
      apply matches_chr_inv in Hm as (c & -> & Hc).
      simpl in *. rewrite Hc. now rewrite Nat.add_1_r in Hk.
  - apply andb_true_iff in Hb as [Hb1 Hb2].
    rewrite (IH1 Hb1). split.
    + intros (s1 & s2 & -> & Hm1 & Hk).
      apply (IH2 Hb2) in Hk as (s3 & s4 & -> & Hm2 & Hk).
      exists (s1 ++ s3), s4. rewrite <- app_assoc, length_app, Nat.add_assoc.
      repeat split; [now constructor|assumption].
    + intros (s12 & s4 & -> & Hm & Hk).
      apply matches_seq_inv in Hm as (s1 & s3 & -> & Hm1 & Hm2).
      exists s1, (s3 ++ s4). rewrite <- app_assoc.
      repeat split; [assumption|].
      apply (IH2 Hb2). exists s3, s4.
      rewrite length_app, Nat.add_assoc in Hk. auto.
  - rewrite star_spec. split.
    + intros (s1 & s2 & -> & Hp & Hk). exists s1, s2.
      repeat split; [now constructor|assumption].
    + intros (s1 & s2 & -> & Hm & Hk). apply matches_star_inv in Hm. eauto.
Qed.

Lemma match_at_spec (r : regex) (pos : nat) (s : jsstring) :
  bol_free r = true ->
  (match_at r pos s <> None <-> exists s1 s2, s = s1 ++ s2 /\ matches r s1).
Proof.
  intros Hb. unfold match_at. rewrite (run_spec r Hb). split.
  - intros (s1 & s2 & E & Hm & _). eauto.
  - intros (s1 & s2 & E & Hm). exists s1, s2. repeat split; auto. discriminate.
Qed.

(** Where such a pattern matches does not depend on the position. *)
Lemma match_at_pos (r : regex) (pos pos' : nat) (s : jsstring) :
  bol_free r = true -> match_at r pos s = None -> match_at r pos' s = None.
Proof.
  intros Hb H. destruct (match_at r pos' s) eqn:E; [|reflexivity].
  assert (Hn : match_at r pos' s <> None) by congruence.
  apply (match_at_spec r pos' s Hb) in Hn.
  apply (match_at_spec r pos s Hb) in Hn. contradiction.
Qed.

(** [search] finds the first index at which the pattern matches. *)
Lemma search_none (r : regex) :
  forall s pos, search r pos s = None ->
    forall j, j <= List.length s ->
              match_at r (pos + j) (skipn j s) = None.
Proof.
  induction s as [|c s IH]; intros pos H j Hj; simpl in H;
    destruct (match_at r pos _) eqn:E; try discriminate.
  - simpl in Hj. replace j with 0 by lia. simpl. now rewrite Nat.add_0_r.
  - destruct j as [|j]; simpl; [now rewrite Nat.add_0_r|].
    rewrite Nat.add_succ_r. apply (IH (S pos) H). simpl in Hj. lia.
Qed.

Lemma search_some (r : regex) :
  forall s pos i e, search r pos s = Some (i, e) ->
    exists j, i = pos + j /\ j <= List.length s
              /\ match_at r i (skipn j s) = Some e
              /\ forall j', j' < j ->
                            match_at r (pos + j') (skipn j' s) = None.
Proof.
  induction s as [|c s IH]; intros pos i e H; simpl in H;
    destruct (match_at r pos _) eqn:E; try discriminate.
  - injection H as <- <-. exists 0. rewrite Nat.add_0_r.
    repeat split; [lia|assumption|lia].
  - injection H as <- <-. exists 0. rewrite Nat.add_0_r.
    repeat split; [simpl; lia|assumption|lia].
  - apply IH in H as (j & -> & Hj & Hm & Hmin).
    exists (S j). rewrite Nat.add_succ_r.
    repeat split; [simpl; lia|assumption|].
    intros [|j'] Hlt; simpl.
    + now rewrite Nat.add_0_r.
    + rewrite Nat.add_succ_r. apply Hmin. lia.
Qed.

(** A pattern that begins with [^] matches at the start only. *)
Lemma search_bol_later (r : regex) :
  forall s pos, search (Seq Bol r) (S pos) s = None.
Proof. induction s as [|c s IH]; intros pos; simpl; [reflexivity|apply IH]. Qed.

Lemma match_at_bol (r : regex) (s : jsstring) :
  match_at (Seq Bol r) 0 s = match_at r 0 s.
Proof. reflexivity. Qed.

Lemma exec_bol (r : regex) (s : jsstring) :
  exec (Seq Bol r) s =
  match match_at r 0 s with Some e => Some (0, e) | None => None end.
Proof.
  unfold exec. destruct s as [|c s]; cbn [search]; rewrite match_at_bol;
    destruct (match_at r 0 _); try reflexivity.
  apply search_bol_later.
Qed.

End MatcherFacts.

(* ------------------------------------------------------------------ *)
(** ** Facts about the repair *)

Module RepairFacts.
Import JS RegExp Spec JSFacts MatcherFacts GeminiService.

Lemma matches_plus (p : code -> bool) (s : jsstring) :
  matches (plus p) s <-> s <> [] /\ forallb p s = true.
Proof.
  unfold plus. split.
  - intros H. apply matches_seq_inv in H as (s1 & s2 & -> & H1 & H2).
    apply matches_chr_inv in H1 as (c & -> & Hc).
    apply matches_star_inv in H2. split; [discriminate|].
    simpl. now rewrite Hc, H2.
  - intros [Hne Hp]. destruct s as [|c s]; [contradiction|].
    simpl in Hp. apply andb_true_iff in Hp as [Hc Hp].
    change (c :: s) with ([c] ++ s). constructor; now constructor.
Qed.

Lemma matches_twice (p : code -> bool) (s : jsstring) :
  matches (twice p) s <-> exists a b, s = [a; b] /\ p a = true /\ p b = true.
Proof.
  unfold twice. split.
  - intros H. apply matches_seq_inv in H as (s1 & s2 & -> & H1 & H2).
    apply matches_chr_inv in H1 as (a & -> & Ha).
    apply matches_chr_inv in H2 as (b & -> & Hb). exists a, b. auto.
  - intros (a & b & -> & Ha & Hb).
    change [a; b] with ([a] ++ [b]). constructor; now constructor.
Qed.

Lemma matches_exactly (a : code) (s : jsstring) :
  matches (Chr (exactly a)) s <-> s = [a].
Proof.
  split.
  - intros H. apply matches_chr_inv in H as (c & -> & Hc).
    apply N.eqb_eq in Hc. now subst.
  - intros ->. constructor. apply N.eqb_refl.
Qed.

Lemma matches_timestamp (s : jsstring) :
  matches timestamp_re s <-> timestamp_prefix s.
Proof.
  unfold timestamp_re, timestamp_prefix. split.
  - intros H.
    apply matches_seq_inv in H as (x1 & y1 & -> & H1 & H).
    apply matches_seq_inv in H as (x2 & y2 & -> & H2 & H).
    apply matches_seq_inv in H as (x3 & y3 & -> & H3 & H).
    apply matches_seq_inv in H as (x4 & y4 & -> & H4 & H5).
    apply matches_twice in H1 as (h1 & h2 & -> & Hh1 & Hh2).
    apply matches_twice in H3 as (m1 & m2 & -> & Hm1 & Hm2).
    apply matches_twice in H5 as (s1 & s2 & -> & Hs1 & Hs2).
    apply matches_exactly in H2, H4. subst.
    exists h1, h2, m1, m2, s1, s2. split; [reflexivity|].
    simpl. now rewrite Hh1, Hh2, Hm1, Hm2, Hs1, Hs2.
  - intros (h1 & h2 & m1 & m2 & s1 & s2 & -> & H). simpl in H.
    repeat (apply andb_true_iff in H; destruct H as [? H]).
    change [h1; h2; COLON; m1; m2; COLON; s1; s2]
      with ([h1; h2] ++ [COLON] ++ [m1; m2] ++ [COLON] ++ [s1; s2]).
    repeat constructor; try (apply matches_twice; eauto);
      apply N.eqb_refl.
Qed.

Lemma matches_cue_anchor (a : jsstring) :
  matches cue_anchor_re a <-> cue_anchor a.
Proof.
  change cue_anchor_re with
    (Seq (plus is_digit) (Seq (Star is_space)
       (Seq (Chr (exactly LF)) timestamp_re))).
  unfold cue_anchor, digits. split.
  - intros H.
    apply matches_seq_inv in H as (ds & y1 & -> & H1 & H).
    apply matches_seq_inv in H as (ws & y2 & -> & H2 & H).
    apply matches_seq_inv in H as (nl & ts & -> & H3 & H4).
    apply matches_plus in H1. apply matches_star_inv in H2.
    apply matches_exactly in H3. subst nl.
    apply matches_timestamp in H4. exists ds, ws, ts. auto.
  - intros (ds & ws & ts & -> & Hd & Hw & Ht).
    constructor; [now apply matches_plus|].
    constructor; [now constructor|].
    constructor; [now apply matches_exactly|now apply matches_timestamp].
Qed.

Lemma matches_strict_anchor (a : jsstring) :
  matches strict_anchor_re a <-> strict_cue_anchor a.
Proof.
  unfold strict_anchor_re, strict_cue_anchor, digits. split.
  - intros H.
    apply matches_seq_inv in H as (ds & y1 & -> & H1 & H).
    apply matches_seq_inv in H as (nl & ts & -> & H3 & H4).
    apply matches_plus in H1. apply matches_exactly in H3. subst nl.
    apply matches_timestamp in H4. exists ds, ts. auto.
  - intros (ds & ts & -> & Hd & Ht).
    constructor; [now apply matches_plus|].
    constructor; [now apply matches_exactly|now apply matches_timestamp].
Qed.

Lemma cue_anchor_bol_free : bol_free cue_anchor_re = true.
Proof. reflexivity. Qed.

Lemma strict_anchor_bol_free : bol_free strict_anchor_re = true.
Proof. reflexivity. Qed.

(** The matcher decides the anchors. *)
Lemma anchor_at_match (t : jsstring) (i pos : nat) :
  anchor_at t i <-> match_at cue_anchor_re pos (skipn i t) <> None.
Proof.
  rewrite (match_at_spec _ _ _ cue_anchor_bol_free). unfold anchor_at.
  split; intros (a & rest & E & H); exists a, rest;
    (split; [assumption|]); now apply matches_cue_anchor.
Qed.

Lemma strict_anchor_at_match (t : jsstring) (i pos : nat) :
  strict_anchor_at t i <-> match_at strict_anchor_re pos (skipn i t) <> None.
Proof.
  rewrite (match_at_spec _ _ _ strict_anchor_bol_free). unfold strict_anchor_at.
  split; intros (a & rest & E & H); exists a, rest;
    (split; [assumption|]); now apply matches_strict_anchor.
Qed.

(** An anchor is not empty, so it starts inside the text. *)
Lemma anchor_at_inside (t : jsstring) (i : nat) :
  anchor_at t i -> i < List.length t.
Proof.
  intros (a & rest & E & ds & ws & ts & -> & [Hne _] & _).
  destruct (Nat.lt_ge_cases i (List.length t)) as [|Hge]; [assumption|].
  rewrite skipn_all2 in E by exact Hge.
  destruct ds; [contradiction|discriminate].
Qed.

Lemma strict_anchor_at_inside (t : jsstring) (i : nat) :
  strict_anchor_at t i -> i < List.length t.
Proof.
  intros (a & rest & E & ds & ts & -> & [Hne _] & _).
  destruct (Nat.lt_ge_cases i (List.length t)) as [|Hge]; [assumption|].
  rewrite skipn_all2 in E by exact Hge.
  destruct ds; [contradiction|discriminate].
Qed.

(** What [exec] returns for the pattern of the anchor. *)
Lemma exec_anchor_none (t : jsstring) :
  exec cue_anchor_re t = None <-> forall i, ~ anchor_at t i.
Proof.
  split.
  - intros H i Ha. pose proof (anchor_at_inside _ _ Ha) as Hi.
    apply (anchor_at_match t i (0 + i)) in Ha. apply Ha.
    apply search_none; [exact H|lia].
  - intros H. destruct (exec cue_anchor_re t) as [[i e]|] eqn:E; [|reflexivity].
    apply search_some in E as (j & -> & _ & Hm & _).
    exfalso. apply (H j). apply (anchor_at_match t j (0 + j)). congruence.
Qed.

Lemma exec_anchor_first (t : jsstring) (i : nat) :
  anchor_at t i -> (forall j, j < i -> ~ anchor_at t j) ->
  exists e, exec cue_anchor_re t = Some (i, e).
Proof.
  intros Ha Hmin.
  destruct (exec cue_anchor_re t) as [[i' e]|] eqn:E.
  - exists e. f_equal. f_equal.
    apply search_some in E as (j & -> & _ & Hm & Hnone). simpl.
    destruct (Nat.lt_trichotomy j i) as [Hlt|[->|Hgt]]; [|reflexivity|].
    + exfalso. apply (Hmin j Hlt).
      apply (anchor_at_match t j (0 + j)). congruence.
    + exfalso. apply (anchor_at_match t i (0 + i)) in Ha.
      apply Ha. now apply Hnone.
  - exfalso. revert Ha. now apply exec_anchor_none.
Qed.

(** The test for a leading digit. *)
Lemma star_total (p : code -> bool) :
  forall s pos, star p pos s (fun e _ => Some e) <> None.
Proof.
  intros s pos. apply star_spec. exists [], s. simpl.
  repeat split. discriminate.
Qed.

Lemma test_leading_digits (t : jsstring) :
  test leading_digits_re t = true <-> begins_with_digit t.
Proof.
  unfold test, leading_digits_re, begins_with_digit. rewrite exec_bol.
  unfold match_at, plus. simpl.
  destruct t as [|c t].
  - split; [discriminate|]. intros (c & rest & E & _). discriminate.
  - destruct (is_digit c) eqn:Hc.
    + pose proof (star_total is_digit t 1) as Hs.
      destruct (star is_digit 1 t _); [|contradiction].
      split; [eauto|reflexivity].
    + split; [discriminate|].
      intros (c' & rest & E & Hd). injection E as <- <-. congruence.
Qed.

Lemma test_leading_digits_false (t : jsstring) :
  test leading_digits_re t = false <-> ~ begins_with_digit t.
Proof.
  rewrite <- test_leading_digits. destruct (test leading_digits_re t);
    split; congruence.
Qed.

(** The repaired text is a suffix of the text. *)
Lemma repair_suffix (t : jsstring) :
  exists i, repair t = skipn i t.
Proof.
  unfold repair. destruct (test leading_digits_re t); simpl.
  - now exists 0.
  - destruct (exec cue_anchor_re t) as [[i e]|]; simpl.
    + now exists i.
    + now exists 0.
Qed.

End RepairFacts.

(* ------------------------------------------------------------------ *)
(** ** The service: what a call does *)

Module ServiceFacts.
Import JS RegExp Spec JSFacts RepairFacts Types GeminiService.

Ltac run_service :=
  cbv [generateSubtitles fileToGenerativePart bind try_catch emit lift ret
       throw settle effects fst snd].

Ltac done_here :=
  split; [reflexivity|eexists; cbn [app]; reflexivity].

Lemma key_unset (env : Env) :
  truthy_opt (API_KEY env) = false -> GEMINI_API_KEY env = [].
Proof.
  unfold GEMINI_API_KEY. destruct (API_KEY env) as [[|c k]|]; simpl;
    intros H; reflexivity || discriminate.
Qed.

Lemma generateSubtitles_unconfigured env f mode tr :
  truthy (GEMINI_API_KEY env) = false ->
  generateSubtitles env f mode tr = (Throw missing_key_message, tr).
Proof. intros H. run_service. now rewrite H. Qed.

Lemma classify_empty_response :
  classify empty_response_message = empty_response_message.
Proof. vm_compute. reflexivity. Qed.

(** With a key, the file is read and the transport is called once; the
    promise settles with the repaired text, or with the classified error. *)
Lemma generateSubtitles_configured env f mode :
  truthy (GEMINI_API_KEY env) = true ->
  let req := request_for env (generativePart env f) mode in
  match generateContent env req with
  | Return resp =>
    match text resp with
    | Some t =>
      if truthy t
      then settle env f mode = Return (repair (normalize t))
      else settle env f mode = Throw empty_response_message
    | None => settle env f mode = Throw empty_response_message
    end
  | Throw message => settle env f mode = Throw (classify message)
  end
  /\ exists rest,
      effects env f mode = ReadAsDataURL f :: GenerateContent req :: rest.
Proof.
  intros H req. run_service. rewrite H. cbv [negb]. cbn [app]. fold req.
  destruct (generateContent env req) as [resp|message] eqn:E; cbn [fst snd].
  - destruct (text resp) as [t|]; cbn [fst snd].
    + destruct t as [|c t]; cbn [truthy negb fst snd].
      * rewrite classify_empty_response. done_here.
      * unfold repair.
        destruct (test leading_digits_re _); cbn [negb fst snd].
        -- done_here.
        -- destruct (exec cue_anchor_re _) as [[i e]|]; cbn [fst snd]; done_here.
    + rewrite classify_empty_response. done_here.
  - done_here.
Qed.

End ServiceFacts.

(* ------------------------------------------------------------------ *)
(** ** Properties of the service *)

Module ServiceSpec.
Import JS RegExp Spec JSFacts RegExpFacts NormalizeFacts MatcherFacts.
Import RepairFacts Types GeminiService ServiceFacts Samples PromptSpec.
Import Removal.

(** C1.  Without a key in the environment (unset or empty)
    [generateSubtitles] throws the configuration error and has no effect
    at all: the file is not read for encoding and the transport is not
    called, whatever the audio and the mode. *)
Theorem missing_key_fails_before_any_effect
        (env : Env) (audioFile : Blob) (mode : TranslationMode) :
  truthy_opt (API_KEY env) = false ->
  settle env audioFile mode = Throw missing_key_message
  /\ effects env audioFile mode = [].
Proof.
  intros H. unfold settle, effects.
  rewrite generateSubtitles_unconfigured; [now split|].
  now rewrite (key_unset env H).
Qed.

Lemma missing_key_fails_before_any_effect_witness :
  truthy_opt (API_KEY env_without_key) = false
  /\ settle env_without_key clipA TO_ENGLISH = Throw missing_key_message
  /\ effects env_without_key clipA TO_ENGLISH = [].
Proof.
  split; [reflexivity|].
  apply (missing_key_fails_before_any_effect env_without_key clipA TO_ENGLISH).
  reflexivity.
Defined.

(** C6.  When the model answers with no text or with the empty text, the
    promise is rejected with the empty-response error, and in no case is
    a document returned. *)
Theorem empty_response_is_rejected
        (env : Env) (audioFile : Blob) (mode : TranslationMode) :
  (forall req, exists resp,
      generateContent env req = Return resp
      /\ truthy_opt (text resp) = false) ->
  (truthy (GEMINI_API_KEY env) = true ->
   settle env audioFile mode = Throw empty_response_message)
  /\ forall doc, settle env audioFile mode <> Return doc.
Proof.
  intros Hmodel.
  assert (Hcfg : truthy (GEMINI_API_KEY env) = true ->
                 settle env audioFile mode = Throw empty_response_message).
  { intros Hkey.
    destruct (generateSubtitles_configured env audioFile mode Hkey) as [H _].
    destruct (Hmodel (request_for env (generativePart env audioFile) mode))
      as (resp & E & Ht).
    rewrite E in H. destruct (text resp) as [t|]; [|exact H].
    simpl in Ht. now rewrite Ht in H. }
  split; [exact Hcfg|].
  intros doc. destruct (truthy (GEMINI_API_KEY env)) eqn:Hkey.
  - rewrite Hcfg by reflexivity. discriminate.
  - unfold settle. rewrite generateSubtitles_unconfigured by exact Hkey.
    discriminate.
Qed.

Lemma empty_response_is_rejected_witness :
  settle (env_answering (Some [])) clipA BILINGUAL_CN_EN
  = Throw empty_response_message
  /\ settle (env_answering None) clipA BILINGUAL_CN_EN
     = Throw empty_response_message.
Proof.
  split.
  - apply (empty_response_is_rejected (env_answering (Some [])) clipA
                                      BILINGUAL_CN_EN).
    + intros req. exists {| text := Some [] |}. now split.
    + reflexivity.
  - apply (empty_response_is_rejected (env_answering None) clipA
                                      BILINGUAL_CN_EN).
    + intros req. exists {| text := None |}. now split.
    + reflexivity.
Defined.

(** C10.  When the model answers with a text that is not empty, the
    promise is fulfilled with the repaired clean text, and that is a
    suffix of the clean text (the text without fences, trimmed): the
    repair only drops a prefix. *)
Theorem result_is_suffix_of_cleaned_text
        (env : Env) (audioFile : Blob) (mode : TranslationMode)
        (answer : jsstring) :
  truthy (GEMINI_API_KEY env) = true ->
  (forall req, generateContent env req = Return {| text := Some answer |}) ->
  truthy answer = true ->
  settle env audioFile mode = Return (repair (normalize answer))
  /\ exists dropped,
      normalize answer = dropped ++ repair (normalize answer).
Proof.
  intros Hkey Hmodel Hne.
  destruct (generateSubtitles_configured env audioFile mode Hkey) as [H _].
  rewrite Hmodel in H. simpl in H. rewrite Hne in H.
  split; [exact H|].
  destruct (repair_suffix (normalize answer)) as [i Hi].
  exists (firstn i (normalize answer)).
  rewrite Hi. symmetry. apply firstn_skipn.
Qed.

Lemma result_is_suffix_of_cleaned_text_witness :
  settle (env_answering (Some chatty)) clipA TO_CHINESE
  = Return (repair (normalize chatty))
  /\ exists dropped, normalize chatty = dropped ++ repair (normalize chatty).
Proof.
  apply (result_is_suffix_of_cleaned_text (env_answering (Some chatty)) clipA
                                          TO_CHINESE chatty);
    reflexivity.
Defined.

(** C7.  The fence clean-up is idempotent. *)
Theorem normalize_idempotent (s : jsstring) :
  normalize (normalize s) = normalize s.
Proof.
  pose proof (normalize_clean s) as Hclean.
  unfold normalize at 1.
  rewrite (replace_fence_srt_absent _ Hclean).
  rewrite (replace_fence_absent _ Hclean).
  unfold normalize. apply trim_idem.
Qed.

(** The pattern of the repair and the anchors it denotes. *)
Lemma exec_anchor_some (t : jsstring) (i e : nat) :
  exec cue_anchor_re t = Some (i, e) ->
  anchor_at t i /\ forall j, j < i -> ~ anchor_at t j.
Proof.
  intros H. apply search_some in H as (j & -> & _ & Hm & Hnone).
  cbn [Nat.add] in *. split.
  - apply (anchor_at_match t j j). congruence.
  - intros j' Hlt Ha. apply (anchor_at_match t j' (0 + j')) in Ha.
    apply Ha. now apply Hnone.
Qed.

Lemma exec_strict_none (t : jsstring) :
  exec strict_anchor_re t = None -> forall i, ~ strict_anchor_at t i.
Proof.
  intros H i Ha. pose proof (strict_anchor_at_inside _ _ Ha) as Hi.
  apply (strict_anchor_at_match t i (0 + i)) in Ha. apply Ha.
  apply search_none; [exact H|lia].
Qed.

(** C2, as amended.  The repair is a function from texts to texts, with
    no failure.  A text that begins with a decimal digit is returned as it
    is.  Otherwise, when the text has an anchor (one or more digits, then
    white space if any, then a line feed, then [dd:dd:dd]) the result is
    the suffix of the text from its first anchor, and when it has none
    the text is returned as it is. *)
Theorem repair_cases (t : jsstring) :
  (begins_with_digit t -> repair t = t)
  /\ (~ begins_with_digit t ->
      forall i, anchor_at t i -> (forall j, j < i -> ~ anchor_at t j) ->
                repair t = skipn i t)
  /\ (~ begins_with_digit t -> (forall i, ~ anchor_at t i) -> repair t = t).
Proof.
  unfold repair. repeat split.
  - intros H. apply test_leading_digits in H. now rewrite H.
  - intros H i Ha Hmin. apply test_leading_digits_false in H. rewrite H.
    destruct (exec_anchor_first t i Ha Hmin) as [e ->]. reflexivity.
  - intros H Hnone. apply test_leading_digits_false in H. rewrite H.
    apply exec_anchor_none in Hnone. now rewrite Hnone.
Qed.

Lemma repair_cases_witness :
  repair one_cue = one_cue
  /\ repair chatty = skipn 19 chatty
  /\ repair (js "no timestamps here") = js "no timestamps here".
Proof.
  split; [|split].
  - apply (proj1 (repair_cases one_cue)).
    apply test_leading_digits. reflexivity.
  - assert (E : exec cue_anchor_re chatty = Some (19, 29)) by reflexivity.
    apply exec_anchor_some in E as [Ha Hmin].
    apply (proj1 (proj2 (repair_cases chatty))); try assumption.
    apply test_leading_digits_false. reflexivity.
  - apply (proj2 (proj2 (repair_cases (js "no timestamps here")))).
    + apply test_leading_digits_false. reflexivity.
    + apply exec_anchor_none. reflexivity.
Defined.

(** C2, as stated, fails: [loose] does not begin with a digit and has no
    anchor in the stated sense (digits, a line feed, a timestamp, with
    nothing in between), and yet the repair does not return it as it is:
    the pattern of the code allows white space before the line feed. *)
Lemma repair_anchor_allows_space :
  ~ begins_with_digit loose
  /\ (forall i, ~ strict_anchor_at loose i)
  /\ repair loose <> loose
  /\ repair loose = skipn 1 loose.
Proof.
  split; [|split; [|split]].
  - apply test_leading_digits_false. reflexivity.
  - apply exec_strict_none. reflexivity.
  - vm_compute. discriminate.
  - reflexivity.
Qed.

(** C3.  For each mode the prompt is the common block, a line feed and
    the clause of the mode.  The common block is, verbatim, the heading
    and the six constraints, set out one under the other, and each
    constraint is found in the prompt.  The clause is item 7, the one
    written for that mode and no other: of the four clauses only that of
    the mode occurs in the prompt, the clause of the transcript mode is
    the one that forbids translating, those of the two translation modes
    name their target language, and that of the bilingual mode asks for
    the two languages.  Only the clause of the bilingual mode holds a
    worked example of a cue (and the heading of the example), the common
    block holding none. *)
Theorem prompt_composition (mode : TranslationMode) :
  promptText mode = commonRequirements ++ [LF] ++ specificInstruction mode
  /\ startsWith commonRequirements (promptText mode) = true
  /\ startsWith (js "7. ") (specificInstruction mode) = true
  /\ includes (js "7. ") commonRequirements = false
  /\ (forall mode', includes (specificInstruction mode') (promptText mode) = true
                    <-> mode' = mode)
  /\ (has_worked_example (specificInstruction mode) = true
      <-> mode = BILINGUAL_CN_EN)
  /\ (includes (js "示例:") (specificInstruction mode) = true
      <-> mode = BILINGUAL_CN_EN)
  /\ has_worked_example commonRequirements = false
  /\ commonRequirements
     = set_out 4 (heading :: constraints) ++ LF :: js "  "
  /\ (forall c, In c constraints -> includes c (promptText mode) = true)
  /\ specificInstruction mode
     = fst (item7 mode) ++ set_out 6 (snd (item7 mode))
  /\ (forbids_translation (specificInstruction mode) = true
      <-> mode = TRANSCRIPT_ONLY)
  /\ (targets_english (specificInstruction mode) = true
      <-> mode = TO_ENGLISH)
  /\ (targets_chinese (specificInstruction mode) = true
      <-> mode = TO_CHINESE)
  /\ (asks_for_two_languages (specificInstruction mode) = true
      <-> mode = BILINGUAL_CN_EN).
Proof.
  split; [reflexivity|].
  split; [apply startsWith_app|].
  split; [now destruct mode|].
  split; [vm_compute; reflexivity|].
  split; [|split; [|split; [|split]]].
  - intros mode'. destruct mode, mode'; vm_compute; split; intros H;
      reflexivity || discriminate.
  - destruct mode; vm_compute; split; intros H; reflexivity || discriminate.
  - destruct mode; vm_compute; split; intros H; reflexivity || discriminate.
  - vm_compute. reflexivity.
  - split; [vm_compute; reflexivity|].
    split.
    { intros c Hc. unfold constraints in Hc. cbn [In] in Hc.
      repeat (destruct Hc as [<-|Hc];
              [destruct mode; vm_compute; reflexivity|]).
      contradiction. }
    split; [destruct mode; vm_compute; reflexivity|].
    repeat split; destruct mode; vm_compute; intros H;
      reflexivity || discriminate.
Qed.

(** The clean-up and texts without backticks. *)
Lemma matches_literal_cons cmp (a : code) (l : jsstring) (c : code) s :
  matches_literal cmp (a :: l) (c :: s) = cmp a c && matches_literal cmp l s.
Proof. reflexivity. Qed.

Lemma occurs_cons cmp (l : jsstring) (c : code) (s : jsstring) :
  occurs cmp l (c :: s) = matches_literal cmp l (c :: s) || occurs cmp l s.
Proof. reflexivity. Qed.

Lemma literal_needs_backtick cmp (a : code) (l : jsstring) (c : code) s :
  (forall x, cmp a x = true -> x = BACKTICK) ->
  (c =? BACKTICK)%N = false ->
  matches_literal cmp (a :: l) (c :: s) = false.
Proof.
  intros Hcmp Hc. simpl. destruct (cmp a c) eqn:E; [|reflexivity].
  apply Hcmp in E. subst c. now rewrite N.eqb_refl in Hc.
Qed.

Lemma occurs_without_backtick cmp (a : code) (l s : jsstring) :
  (forall x, cmp a x = true -> x = BACKTICK) ->
  backtick_free s = true -> occurs cmp (a :: l) s = false.
Proof.
  intros Hcmp. induction s as [|c s IH]; intros H; [reflexivity|].
  cbn [backtick_free forallb] in H. apply andb_true_iff in H as [Hc Hs].
  apply negb_true_iff in Hc.
  cbn [occurs]. rewrite (literal_needs_backtick cmp a l c s Hcmp Hc).
  now apply IH.
Qed.

Lemma cut_past cmp (a : code) (l pre x : jsstring) :
  (forall c, cmp a c = true -> c = BACKTICK) ->
  backtick_free pre = true ->
  cut cmp (a :: l) 0 (pre ++ x) = pre ++ cut cmp (a :: l) 0 x.
Proof.
  intros Hcmp. induction pre as [|c pre IH]; intros H; [reflexivity|].
  cbn [backtick_free forallb] in H. apply andb_true_iff in H as [Hc Hs].
  apply negb_true_iff in Hc. cbn [app].
  rewrite cut_miss by now apply literal_needs_backtick.
  f_equal. now apply IH.
Qed.

Lemma exactly_backtick (c : code) : exactly BACKTICK c = true -> c = BACKTICK.
Proof. intros H. apply N.eqb_eq in H. now symmetry. Qed.

Lemma backtick_free_app (a b : jsstring) :
  backtick_free a = true -> backtick_free b = true ->
  backtick_free (a ++ b) = true.
Proof.
  unfold backtick_free. intros Ha Hb. rewrite forallb_app.
  apply andb_true_iff. now split.
Qed.

Lemma backtick_free_clean (s : jsstring) :
  backtick_free s = true -> includes (js "```") s = false.
Proof.
  intros H. rewrite <- occurs_exactly, fence_literal.
  apply occurs_without_backtick; [apply exactly_backtick|exact H].
Qed.

(** The first replacement takes a fence with its [srt] tag away. *)
Lemma replace_fence_srt_tagged (pre tag post : jsstring) :
  backtick_free pre = true -> backtick_free post = true ->
  is_srt_tag tag = true ->
  replace fence_srt_re [] (pre ++ js "```" ++ tag ++ post) = pre ++ post.
Proof.
  intros Hpre Hpost Htag. unfold replace, fence_srt_re.
  rewrite fence_srt_literal, fence_literal.
  rewrite cut_past by (apply canonicalize_backtick || exact Hpre).
  f_equal.
  unfold is_srt_tag in Htag. apply andb_true_iff in Htag as [Hm Hlen].
  destruct tag as [|t1 [|t2 [|t3 [|t4 tag]]]]; try discriminate.
  change (js "srt") with [115; 114; 116]%N in Hm.
  cbn [matches_literal] in Hm.
  cbn [app]. rewrite cut_hit.
  - cbn [List.length]. rewrite !cut_skip.
    apply cut_absent, occurs_without_backtick;
      [apply canonicalize_backtick|exact Hpost].
  - cbn [matches_literal].
    replace (ignoring_case BACKTICK BACKTICK) with true by reflexivity.
    exact Hm.
Qed.

(** It leaves a fence that has another tag, or none, to the second. *)
Lemma replace_fence_srt_untagged (pre post : jsstring) :
  backtick_free pre = true -> backtick_free post = true ->
  matches_literal ignoring_case (js "srt") post = false ->
  replace fence_srt_re [] (pre ++ js "```" ++ post) = pre ++ js "```" ++ post.
Proof.
  intros Hpre Hpost Htag. unfold replace, fence_srt_re.
  rewrite fence_srt_literal, fence_literal.
  rewrite cut_past by (apply canonicalize_backtick || exact Hpre).
  f_equal. apply cut_absent.
  assert (Hhead : forall l s,
             backtick_free s = true ->
             matches_literal ignoring_case (BACKTICK :: l) s = false).
  { intros l [|c s] H; [reflexivity|].
    cbn [backtick_free forallb] in H. apply andb_true_iff in H as [Hc _].
    apply negb_true_iff in Hc.
    apply literal_needs_backtick; [apply canonicalize_backtick|exact Hc]. }
  change (js "srt") with [115; 114; 116]%N in Htag.
  cbn [app]. rewrite !occurs_cons.
  rewrite (occurs_without_backtick _ _ _ _ canonicalize_backtick Hpost).
  rewrite !matches_literal_cons.
  replace (ignoring_case BACKTICK BACKTICK) with true by reflexivity.
  rewrite Htag.
  rewrite (Hhead [115; 114; 116]%N post Hpost).
  rewrite (Hhead [BACKTICK; 115; 114; 116]%N post Hpost).
  reflexivity.
Qed.

Lemma replace_fence_plain (pre post : jsstring) :
  backtick_free pre = true -> backtick_free post = true ->
  replace fence_re [] (pre ++ js "```" ++ post) = pre ++ post.
Proof.
  intros Hpre Hpost. rewrite fence_literal.
  transitivity (pre ++ replace fence_re []
                      ([BACKTICK; BACKTICK; BACKTICK] ++ post)).
  - unfold replace, fence_re. rewrite fence_literal.
    apply cut_past; [apply exactly_backtick|exact Hpre].
  - f_equal. cbn [app]. rewrite replace_fence_hit.
    now apply replace_fence_absent, backtick_free_clean.
Qed.

(** A trimmed text has no white space at either end. *)
Lemma trimEnd_last (s front : jsstring) (c : code) :
  trimEnd s = front ++ [c] -> is_space c = false.
Proof.
  revert front. induction s as [|x s IH]; intros front E; simpl in E.
  - now destruct front.
  - destruct (trimEnd s) as [|y r] eqn:Hr.
    + destruct (is_space x) eqn:Hx.
      * now destruct front.
      * destruct front as [|f [|f' front]]; try discriminate.
        now injection E as <-.
    + destruct front as [|f front]; [discriminate|].
      injection E as <- E. now apply (IH front).
Qed.

Lemma trim_trimmed (s : jsstring) : trimmed (trim s).
Proof.
  split.
  - intros c rest E. pose proof (trimStart_trim s) as H. rewrite E in H.
    simpl in H. destruct (is_space c) eqn:Hc; [|reflexivity].
    destruct (trimStart_suffix rest) as (pre & Ep & _).
    rewrite H in Ep. apply (f_equal (@List.length _)) in Ep.
    rewrite length_app in Ep. simpl in Ep. lia.
  - intros c front E. unfold trim in E. now apply trimEnd_last in E.
Qed.

Lemma trimStart_fixed (s : jsstring) :
  (forall c rest, s = c :: rest -> is_space c = false) -> trimStart s = s.
Proof.
  destruct s as [|c s]; intros H; [reflexivity|].
  apply trimStart_head. now apply (H c s).
Qed.

Lemma trimEnd_fixed (s : jsstring) :
  (forall c front, s = front ++ [c] -> is_space c = false) -> trimEnd s = s.
Proof.
  induction s as [|x s IH]; intros H; [reflexivity|].
  cbn [trimEnd]. rewrite IH.
  - destruct s as [|y r]; [|reflexivity].
    now rewrite (H x []).
  - intros c front E. apply (H c (x :: front)). now rewrite E.
Qed.

Lemma trim_fixed (s : jsstring) : trimmed s -> trim s = s.
Proof.
  intros [H1 H2]. unfold trim. rewrite (trimStart_fixed s H1).
  now apply trimEnd_fixed.
Qed.

Lemma trim_blank (s : jsstring) : forallb is_space s = true -> trim s = [].
Proof.
  intros H. unfold trim.
  assert (E : trimStart s = []).
  { induction s as [|c s IH]; [reflexivity|].
    simpl in H. apply andb_true_iff in H as [Hc Hs].
    simpl. rewrite Hc. now apply IH. }
  now rewrite E.
Qed.

Lemma trimStart_past (lead x : jsstring) :
  forallb is_space lead = true -> trimStart (lead ++ x) = trimStart x.
Proof.
  induction lead as [|c lead IH]; intros H; [reflexivity|].
  simpl in H. apply andb_true_iff in H as [Hc Hl].
  simpl. rewrite Hc. now apply IH.
Qed.

Lemma trimEnd_blank (s : jsstring) :
  forallb is_space s = true -> trimEnd s = [].
Proof.
  induction s as [|c s IH]; intros H; [reflexivity|].
  simpl in H. apply andb_true_iff in H as [Hc Hs].
  simpl. now rewrite (IH Hs), Hc.
Qed.

Lemma trimEnd_past (x trail : jsstring) :
  forallb is_space trail = true -> trimEnd (x ++ trail) = trimEnd x.
Proof.
  intros H. induction x as [|c x IH].
  - now apply trimEnd_blank.
  - cbn [app trimEnd]. now rewrite IH.
Qed.

(** The trimmed text is the only text without white space at its ends
    that the text is made of with white space around it. *)
Lemma trim_unique (b lead t trail : jsstring) :
  b = lead ++ t ++ trail ->
  forallb is_space lead = true -> forallb is_space trail = true ->
  trimmed t -> trim b = t.
Proof.
  intros -> Hl Ht Htrim. unfold trim. rewrite (trimStart_past _ _ Hl).
  destruct t as [|c t].
  - cbn [app]. assert (E : trimStart trail = []).
    { clear -Ht. induction trail as [|c s IH]; [reflexivity|].
      simpl in Ht. apply andb_true_iff in Ht as [Hc Hs].
      simpl. rewrite Hc. now apply IH. }
    now rewrite E.
  - destruct Htrim as [Hfirst Hlast].
    cbn [app]. rewrite trimStart_head by now apply (Hfirst c t).
    change (c :: t ++ trail) with ((c :: t) ++ trail).
    rewrite (trimEnd_past _ _ Ht). now apply trimEnd_fixed.
Qed.

Lemma trim_surrounded (s : jsstring) :
  exists lead trail,
    s = lead ++ trim s ++ trail
    /\ forallb is_space lead = true /\ forallb is_space trail = true.
Proof.
  destruct (trimStart_suffix s) as (lead & E & Hl).
  destruct (trimEnd_prefix (trimStart s)) as (trail & E' & Ht).
  exists lead, trail. unfold trim. now rewrite <- E', <- E.
Qed.

(** The matcher's replacement takes the occurrences out as [removed]
    says, and [removed] leaves one result only. *)
Lemma cut_skipn cmp (l : jsstring) :
  forall n s, cut cmp l n s = cut cmp l 0 (skipn n s).
Proof.
  induction n as [|n IH]; intros s; [reflexivity|].
  destruct s as [|c s].
  - now rewrite !cut_nil.
  - rewrite cut_skip. apply IH.
Qed.

Lemma cut_removed_bounded cmp (a : code) (l : jsstring) (n : nat) :
  forall s, List.length s <= n ->
            removed cmp (a :: l) s (cut cmp (a :: l) 0 s).
Proof.
  induction n as [|n IH]; intros s Hn.
  - destruct s; [|simpl in Hn; lia]. rewrite cut_nil. constructor.
  - destruct s as [|c s]; [rewrite cut_nil; constructor|].
    destruct (matches_literal cmp (a :: l) (c :: s)) eqn:E.
    + rewrite (cut_hit _ _ _ _ _ E), cut_skipn.
      apply removed_hit; [discriminate|exact E|].
      cbn [List.length skipn]. apply IH.
      rewrite length_skipn. simpl in Hn. lia.
    + rewrite (cut_miss _ _ _ _ E). apply removed_miss; [exact E|].
      apply IH. simpl in Hn. lia.
Qed.

Lemma cut_removed cmp (a : code) (l s : jsstring) :
  removed cmp (a :: l) s (cut cmp (a :: l) 0 s).
Proof. now apply (cut_removed_bounded cmp a l (List.length s)). Qed.

Lemma removed_functional cmp (l s r r' : jsstring) :
  removed cmp l s r -> removed cmp l s r' -> r = r'.
Proof.
  intros H. revert r'. induction H as [|s r Hl Hm H IH|c s r Hm H IH];
    intros r' H'.
  - inversion H' as [|s0 r0 Hl' Hm' _|]; subst; [reflexivity|].
    destruct l; [contradiction|discriminate].
  - inversion H' as [|s0 r0 Hl' Hm' Hr'|c0 s0 r0 Hm' Hr']; subst.
    + destruct l; [contradiction|discriminate].
    + now apply IH.
    + congruence.
  - inversion H' as [|s0 r0 Hl' Hm' Hr'|c0 s0 r0 Hm' Hr']; subst.
    + congruence.
    + f_equal. now apply IH.
Qed.

Lemma replace_fence_srt_removed (s : jsstring) :
  removed ignoring_case (js "```srt") s (replace fence_srt_re [] s).
Proof.
  unfold replace, fence_srt_re. rewrite fence_srt_literal. apply cut_removed.
Qed.

Lemma replace_fence_removed (s : jsstring) :
  removed exactly (js "```") s (replace fence_re [] s).
Proof.
  unfold replace, fence_re. rewrite fence_literal. apply cut_removed.
Qed.

(** C8, as amended.  The clean-up leaves no fence marker in the text and
    no white space at its ends.  A marker is removed with the tag that
    follows it when that tag is [srt], in any letter case; when something
    else follows, only the three backticks are removed and what follows
    them stays.  For every text the result is the one text that is left
    when the markers with the tag [srt] are taken out of it wherever they
    occur, then the markers, then the white space at both ends. *)
Theorem normalize_strips_fences (s : jsstring) :
  includes (js "```") (normalize s) = false
  /\ trimmed (normalize s)
  /\ (forall pre tag post,
         s = pre ++ js "```" ++ tag ++ post ->
         backtick_free pre = true -> backtick_free post = true ->
         is_srt_tag tag = true ->
         normalize s = trim (pre ++ post))
  /\ (forall pre post,
         s = pre ++ js "```" ++ post ->
         backtick_free pre = true -> backtick_free post = true ->
         matches_literal ignoring_case (js "srt") post = false ->
         normalize s = trim (pre ++ post))
  /\ (forall t, normalize s = t <-> cleaned s t).
Proof.
  split; [apply normalize_clean|].
  split; [apply trim_trimmed|].
  split; [|split].
  - intros pre tag post -> Hpre Hpost Htag. unfold normalize.
    rewrite replace_fence_srt_tagged by assumption.
    rewrite replace_fence_absent; [reflexivity|].
    now apply backtick_free_clean, backtick_free_app.
  - intros pre post -> Hpre Hpost Htag. unfold normalize.
    rewrite replace_fence_srt_untagged by assumption.
    now rewrite replace_fence_plain.
  - intros t. split.
    + intros <-. unfold normalize.
      set (a := replace fence_srt_re [] s).
      set (b := replace fence_re [] a).
      destruct (trim_surrounded b) as (lead & trail & E & Hl & Ht).
      exists a, b, lead, trail.
      split; [apply replace_fence_srt_removed|].
      split; [apply replace_fence_removed|].
      split; [exact E|]. split; [exact Hl|]. split; [exact Ht|].
      apply trim_trimmed.
    + intros (a & b & lead & trail & Ha & Hb & E & Hl & Ht & Htrim).
      rewrite (removed_functional _ _ _ _ _ Ha (replace_fence_srt_removed s))
        in Hb.
      rewrite (removed_functional _ _ _ _ _ Hb (replace_fence_removed _))
        in E.
      unfold normalize. now apply (trim_unique _ lead t trail).
Qed.

Ltac take_out :=
  repeat first
         [ apply removed_nil
         | apply removed_miss; [vm_compute; reflexivity|]
         | apply removed_hit;
           [discriminate|vm_compute; reflexivity|cbn [skipn List.length]] ].

Lemma normalize_strips_fences_witness :
  normalize (js "Here:" ++ js "```" ++ js "SRT" ++ LF :: one_cue)
  = trim (js "Here:" ++ LF :: one_cue)
  /\ normalize ([] ++ js "```" ++ js "json" ++ LF :: one_cue)
     = trim ([] ++ js "json" ++ LF :: one_cue)
  /\ normalize fenced_json = js "json" ++ [LF] ++ js "1".
Proof.
  split; [|split].
  - apply (proj1 (proj2 (proj2 (normalize_strips_fences
             (js "Here:" ++ js "```" ++ js "SRT" ++ LF :: one_cue))))
             (js "Here:") (js "SRT") (LF :: one_cue));
      vm_compute; reflexivity.
  - apply (proj1 (proj2 (proj2 (proj2 (normalize_strips_fences
             ([] ++ js "```" ++ js "json" ++ LF :: one_cue)))))
             [] (js "json" ++ LF :: one_cue));
      vm_compute; reflexivity.
  - apply (proj2 (proj2 (proj2 (proj2 (proj2
             (normalize_strips_fences fenced_json))))
             (js "json" ++ [LF] ++ js "1"))).
    exists fenced_json, (js "json" ++ [LF] ++ js "1" ++ [LF]), [], [LF].
    split; [|split; [|split; [|split; [|split]]]].
    + vm_compute. take_out.
    + vm_compute. take_out.
    + vm_compute. reflexivity.
    + reflexivity.
    + reflexivity.
    + replace (js "json" ++ [LF] ++ js "1")
        with (trim (js "json" ++ [LF] ++ js "1")) by (vm_compute; reflexivity).
      apply trim_trimmed.
Defined.

(** C8, as stated, fails: a fence with the tag [json] loses its three
    backticks and keeps its tag, where the clean-up in the words of the
    specification takes the tag away too. *)
Lemma normalize_keeps_other_tags :
  normalize fenced_json = js "json" ++ [LF] ++ js "1"
  /\ spec_normalize fenced_json = js "1"
  /\ normalize fenced_json <> spec_normalize fenced_json.
Proof.
  split; [vm_compute; reflexivity|]. split; [vm_compute; reflexivity|].
  vm_compute. discriminate.
Qed.

End ServiceSpec.

(* ------------------------------------------------------------------ *)
(** ** Facts about the component *)

Module AppFacts.
Import JS Types GeminiService App.

Lemma run_snoc env w actions a :
  run env w (actions ++ [a]) = step env (run env w actions) a.
Proof. unfold run. now rewrite fold_left_app. Qed.

Lemma run_cons env w a actions :
  run env w (a :: actions) = run env (step env w a) actions.
Proof. reflexivity. Qed.

Lemma step_calm env w a : calm w -> calm (step env w a).
Proof.
  unfold calm. intros Hw.
  destruct a as [f n| | | |m| | |i]; simpl.
  - discriminate.
  - destruct (file_card_rendered w); [discriminate|assumption].
  - destruct (controls_rendered w); [|assumption].
    unfold handleProcess. destruct (file (audioState w)); [reflexivity|assumption].
  - destruct (error_rendered w); [|assumption].
    unfold handleProcess. destruct (file (audioState w)); [reflexivity|assumption].
  - destruct (controls_rendered w); assumption.
  - destruct (result_rendered w); assumption.
  - destruct (result_rendered w); [|assumption].
    unfold handleDownload. destruct (negb _); assumption.
  - destruct (nth_error (pending w) i); [|assumption].
    unfold resume. destruct (settle env _ _); discriminate.
Qed.

Lemma run_calm env actions : forall w, calm w -> calm (run env w actions).
Proof.
  induction actions as [|a actions IH]; intros w Hw; [assumption|].
  rewrite run_cons. apply IH. now apply step_calm.
Qed.

Lemma init_calm : calm init.
Proof. discriminate. Qed.

Lemma handleProcess_single w :
  single w -> isProcessing (processingState w) = false ->
  single (handleProcess w).
Proof.
  intros [Hcalm Hp] Hidle. unfold handleProcess.
  destruct (file (audioState w)) as [f|]; [|now split].
  destruct Hp as [Hp|(inv & _ & Hproc)]; [|congruence].
  split; [intros _; reflexivity|]. right. simpl. rewrite Hp.
  eexists. split; reflexivity.
Qed.

Lemma step_single env w a :
  single w ->
  match a with
  | AudioSelected _ _ | ClickClear => pending w = []
  | _ => True
  end ->
  single (step env w a).
Proof.
  intros Hs Hquiet. pose proof Hs as [Hcalm Hp].
  split; [now apply step_calm|].
  destruct a as [f n| | | |m| | |i]; simpl.
  - now left.
  - destruct (file_card_rendered w); [now left|assumption].
  - destruct (controls_rendered w) eqn:E; [|assumption].
    apply handleProcess_single; [assumption|].
    unfold controls_rendered in E.
    destruct (isProcessing (processingState w)); [|reflexivity].
    now rewrite andb_false_r in E.
  - destruct (error_rendered w) eqn:E; [|assumption].
    apply handleProcess_single; [assumption|].
    unfold error_rendered in E.
    destruct (isProcessing (processingState w)) eqn:Hproc; [|reflexivity].
    rewrite (Hcalm Hproc) in E. discriminate.
  - destruct (controls_rendered w); assumption.
  - destruct (result_rendered w); assumption.
  - destruct (result_rendered w); [|assumption].
    unfold handleDownload. destruct (negb _); assumption.
  - destruct (nth_error (pending w) i) as [inv|] eqn:E; [|assumption].
    left. destruct Hp as [Hp|(inv' & Hp & _)].
    + rewrite Hp in E. now destruct i.
    + assert (Hd : drop_nth i (pending w) = []).
      { rewrite Hp in *. destruct i as [|i]; [reflexivity|].
        simpl in E. now destruct i. }
      unfold resume. destruct (settle env _ _); simpl; exact Hd.
Qed.

Lemma run_single env actions :
  forall w, single w -> undisturbed env w actions ->
            single (run env w actions).
Proof.
  induction actions as [|a actions IH]; intros w Hs Hu; [assumption|].
  destruct Hu as [Hquiet Hu]. rewrite run_cons. apply IH; [|assumption].
  now apply step_single.
Qed.

Lemma init_single : single init.
Proof. split; [apply init_calm|now left]. Qed.

End AppFacts.

(* ------------------------------------------------------------------ *)
(** ** Properties of the component *)

Module AppSpec.
Import JS Types GeminiService App AppFacts Samples.

(** C5, as amended.  In every state the component reaches in which it is
    processing, neither control bound to [handleProcess] is rendered:
    a click on the generate button or on the retry button changes nothing
    and issues no request.  [handleProcess] itself checks only that a
    file is present.  At most one invocation is pending as long as no
    selection and no clear happens while one is; a clear does not cancel
    the pending invocation. *)
Theorem invoke_unavailable_while_processing
        (env : Env) (actions : list Action) :
  (isProcessing (processingState (run env init actions)) = true ->
   step env (run env init actions) ClickGenerate = run env init actions
   /\ step env (run env init actions) ClickRetry = run env init actions)
  /\ (undisturbed env init actions ->
      List.length (pending (run env init actions)) <= 1).
Proof.
  split.
  - intros Hproc.
    pose proof (run_calm env actions init init_calm) as Hcalm.
    simpl. unfold controls_rendered, error_rendered.
    rewrite Hproc, (Hcalm Hproc). simpl.
    now rewrite andb_false_r.
  - intros Hu.
    destruct (run_single env actions init init_single Hu)
      as [_ [->|(inv & -> & _)]]; simpl; lia.
Qed.

Lemma invoke_unavailable_while_processing_witness :
  let actions := [AudioSelected clipA (js "a.mp3"); ClickGenerate] in
  let w := run env_without_key init actions in
  (step env_without_key w ClickGenerate = w
   /\ step env_without_key w ClickRetry = w)
  /\ List.length (pending w) <= 1.
Proof.
  intros actions w. split.
  - apply (invoke_unavailable_while_processing env_without_key actions).
    reflexivity.
  - apply (invoke_unavailable_while_processing env_without_key actions).
    simpl. auto.
Defined.

(** C5, as stated, fails: after a clear while an invocation is pending,
    a new selection can be invoked, and two invocations are pending. *)
Lemma two_invocations_pending :
  pending (run (env_answering (Some one_cue)) init
               [AudioSelected clipA (js "a.mp3"); ClickGenerate;
                         ClickClear;
                         AudioSelected clipB (js "b.webm"); ClickGenerate])
  = [ {| inv_file := clipA; inv_mode := BILINGUAL_CN_EN |};
      {| inv_file := clipB; inv_mode := BILINGUAL_CN_EN |} ].
Proof. reflexivity. Qed.

(** What a clear does while the component is processing, and what the
    pending invocation does when it settles afterwards: the clear leaves
    the component idle, the invocation stays pending, and its
    continuation runs unchecked. *)
Lemma clear_while_processing (env : Env) (w : World) :
  isProcessing (processingState w) = true ->
  file_card_rendered w = true ->
  (audioState (step env w ClickClear) = no_audio
   /\ srtContent (step env w ClickClear) = []
   /\ processingState (step env w ClickClear) = not_processing
   /\ phase (step env w ClickClear) = Idle)
  /\ pending (step env w ClickClear) = pending w
  /\ forall i inv,
      nth_error (pending w) i = Some inv ->
      audioState (step env (step env w ClickClear) (Settle i)) = no_audio
      /\ match settle env (inv_file inv) (inv_mode inv) with
         | Return doc =>
           srtContent (step env (step env w ClickClear) (Settle i)) = doc
         | Throw message =>
           error (processingState
                    (step env (step env w ClickClear) (Settle i)))
           = Some (or_else message (js "发生未知错误，请重试。"))
         end.
Proof.
  intros _ Hcard. cbn [step]. rewrite Hcard.
  split; [now repeat split|]. split; [reflexivity|].
  intros i inv Hi. cbn [step clearAudio pending]. rewrite Hi.
  destruct (settle env (inv_file inv) (inv_mode inv)); now split.
Qed.

(** Both handlers that change the source discard the document of the
    source before: [setSrtContent('')] in [clearAudio] and in
    [handleAudioSelected]. *)
Lemma source_change_discards_document (w : World) f n :
  srtContent (clearAudio w) = []
  /\ srtContent (handleAudioSelected w f n) = [].
Proof. now split. Qed.

(** The continuation of [handleProcess] does not look at the source: the
    document it sets is the text returned, whatever the state is by
    then. *)
Lemma resume_ignores_the_source (w : World) (result : jsstring) :
  srtContent (resume w (Return result)) = result
  /\ audioState (resume w (Return result)) = audioState w.
Proof. now split. Qed.

(** C4.  The code at the failing input: a clear while an invocation is in
    flight, then the response.  The clear leaves the component idle at
    once, without a document, and the invocation stays pending.  The
    response that arrives afterwards is not discarded: it sets the
    document of the cleared session, and the result area is rendered for
    it.  When another source has been selected in between, the document
    made from the first source is shown for the second and offered for
    download under the second's name, although the second source would
    have given another document. *)
Theorem stale_response_is_applied :
  let env := env_transcribing in
  let cleared :=
      run env init
          [AudioSelected clipA (js "a.mp3"); ClickGenerate; ClickClear] in
  let late := step env cleared (Settle 0) in
  let crossed :=
      run env init
          [AudioSelected clipA (js "a.mp3"); ClickGenerate; ClickClear;
           AudioSelected clipB (js "b.webm"); Settle 0] in
  (phase cleared = Idle
   /\ srtContent cleared = []
   /\ pending cleared = [ {| inv_file := clipA; inv_mode := BILINGUAL_CN_EN |} ])
  /\ (file (audioState late) = None
      /\ srtContent late = one_cue
      /\ result_rendered late = true)
  /\ (file (audioState crossed) = Some clipB
      /\ name (audioState crossed) = js "b.webm"
      /\ srtContent crossed = one_cue
      /\ Download.download crossed = Some (js "b.srt", one_cue)
      /\ settle env clipB BILINGUAL_CN_EN = Return other_cue
      /\ one_cue <> other_cue).
Proof.
  intros env cleared late crossed.
  assert (Ec : cleared
               = clearAudio (run env init [AudioSelected clipA (js "a.mp3");
                                           ClickGenerate]))
    by reflexivity.
  assert (El : srtContent late = one_cue) by (vm_compute; reflexivity).
  assert (Ex : srtContent crossed = one_cue) by (vm_compute; reflexivity).
  split; [|split].
  - split; [reflexivity|]. split; reflexivity.
  - split; [reflexivity|]. split; [exact El|].
    unfold result_rendered. rewrite El. vm_compute. reflexivity.
  - split; [reflexivity|]. split; [reflexivity|]. split; [exact Ex|].
    split; [vm_compute; reflexivity|].
    split; [vm_compute; reflexivity|].
    intros E. apply (f_equal (fun s => nth 9 s 0%N)) in E.
    vm_compute in E. discriminate E.
Qed.

(** What [clearAudio] does for the object URL of the source. *)
Lemma clear_revokes_url (w : World) (u : ObjectURL) :
  url (audioState w) = Some u -> ~ In u (objectURLs (clearAudio w)).
Proof. intros H. simpl. rewrite H. apply remove_In. Qed.

(** What [handleAudioSelected] does not: every URL that was live stays
    live, that of the source it replaces included. *)
Lemma selection_revokes_nothing (w : World) f n (u : ObjectURL) :
  In u (objectURLs w) -> In u (objectURLs (handleAudioSelected w f n)).
Proof. intros H. simpl. now right. Qed.

(** C9.  The code at the failing input: a second selection without a
    clear in between.  The URL of the first source is still live after
    the second selection, nothing refers to it any more, and the clear
    that follows revokes the URL of the second source only. *)
Theorem replaced_source_keeps_its_url (env : Env) :
  url (audioState (run env init [AudioSelected clipA (js "a.mp3")])) = Some 0
  /\ url (audioState (run env init [AudioSelected clipA (js "a.mp3");
                                    AudioSelected clipB (js "b.webm")]))
     = Some 1
  /\ objectURLs (run env init [AudioSelected clipA (js "a.mp3");
                               AudioSelected clipB (js "b.webm")])
     = [1; 0]
  /\ objectURLs (run env init [AudioSelected clipA (js "a.mp3");
                               AudioSelected clipB (js "b.webm");
                               ClickClear])
     = [0].
Proof. repeat split. Qed.

End AppSpec.

(* ------------------------------------------------------------------ *)
(** ** More about the service *)

Module ServiceMore.
Import JS RegExp Spec JSFacts RegExpFacts NormalizeFacts MatcherFacts.
Import RepairFacts Types GeminiService ServiceFacts ServiceSpec Samples.
Import Observations.

(** *** The effects of a call, in full *)

(** What is logged after the transport was called. *)
Lemma effects_configured env f mode :
  truthy (GEMINI_API_KEY env) = true ->
  let req := request_for env (generativePart env f) mode in
  effects env f mode
  = ReadAsDataURL f :: GenerateContent req ::
    match generateContent env req with
    | Return resp =>
      match text resp with
      | Some t =>
        if truthy t
        then if test leading_digits_re (normalize t)
             then []
             else [ConsoleWarn repair_warning]
        else [ConsoleError empty_response_message]
      | None => [ConsoleError empty_response_message]
      end
    | Throw message => [ConsoleError message]
    end.
Proof.
  intros H req. run_service. rewrite H. cbv [negb]. cbn [app]. fold req.
  destruct (generateContent env req) as [resp|message]; cbn [fst snd];
    [|reflexivity].
  destruct (text resp) as [[|c t]|]; cbn [truthy fst snd app];
    try reflexivity.
  destruct (test leading_digits_re _); cbn [fst snd app]; [reflexivity|].
  destruct (exec cue_anchor_re _) as [[i e]|]; reflexivity.
Qed.

(** X1.  A call reads the file once when a key is configured, and calls
    the transport once, after the read, when moreover the read succeeds;
    whatever the model answers, nothing else happens but console output:
    the request is not sent a second time.  When the read fails the
    transport is not called and the call never settles.  Without a key
    the call is rejected and neither reads nor calls. *)
Theorem one_read_one_request
        (env : Env) (result : FileReads.Reader) (f : Blob)
        (mode : TranslationMode) :
  let call := FileReads.generateSubtitles env result f mode in
  count is_file_read (snd call)
  = (if truthy (GEMINI_API_KEY env) then 1 else 0)
  /\ count is_transport_call (snd call)
     = (if truthy (GEMINI_API_KEY env) && FileReads.is_some (result f)
        then 1 else 0)
  /\ (truthy (GEMINI_API_KEY env) = true ->
      forall dataURL, result f = Some dataURL ->
      exists logged,
        snd call
        = ReadAsDataURL f
          :: GenerateContent
               (request_for (FileReads.having_read env dataURL)
                            (generativePart (FileReads.having_read env dataURL) f)
                            mode)
          :: logged
        /\ forallb is_console logged = true
        /\ fst call <> FileReads.Unsettled)
  /\ (truthy (GEMINI_API_KEY env) = true ->
      result f = None ->
      call = (FileReads.Unsettled, [ReadAsDataURL f]))
  /\ (truthy (GEMINI_API_KEY env) = false ->
      call = (FileReads.Rejected missing_key_message, [])).
Proof.
  intros call. subst call. unfold FileReads.generateSubtitles.
  destruct (truthy (GEMINI_API_KEY env)) eqn:Hkey; cbn [negb andb].
  - destruct (result f) as [dataURL|] eqn:Hres; cbn [FileReads.is_some fst snd].
    + set (env' := FileReads.having_read env dataURL).
      assert (Hkey' : truthy (GEMINI_API_KEY env') = true) by exact Hkey.
      rewrite (effects_configured env' f mode Hkey').
      set (req := request_for env' (generativePart env' f) mode).
      assert (Hlog : exists logged,
                 match generateContent env' req with
                 | Return resp =>
                   match text resp with
                   | Some t =>
                     if truthy t
                     then if test leading_digits_re (normalize t)
                          then []
                          else [ConsoleWarn repair_warning]
                     else [ConsoleError empty_response_message]
                   | None => [ConsoleError empty_response_message]
                   end
                 | Throw message => [ConsoleError message]
                 end = logged
                 /\ forallb is_console logged = true
                 /\ count is_file_read logged = 0
                 /\ count is_transport_call logged = 0).
      { destruct (generateContent env' req) as [resp|message].
        - destruct (text resp) as [t|].
          + destruct (truthy t).
            * destruct (test leading_digits_re (normalize t));
                eexists; repeat split.
            * eexists; repeat split.
          + eexists; repeat split.
        - eexists; repeat split. }
      destruct Hlog as (logged & -> & Hc & Hr & Ht).
      unfold count in *. cbn [filter is_file_read is_transport_call].
      cbn [List.length]. rewrite Hr, Ht.
      split; [reflexivity|]. split; [reflexivity|].
      split; [|split; discriminate].
      intros _ d Hd. injection Hd as <-. exists logged.
      split; [reflexivity|]. split; [exact Hc|].
      now destruct (settle env' f mode).
    + split; [reflexivity|]. split; [reflexivity|].
      split; [discriminate|]. split; [reflexivity|discriminate].
  - cbn [fst snd]. split; [reflexivity|]. split; [reflexivity|].
    split; [discriminate|]. split; [discriminate|reflexivity].
Qed.

Lemma one_read_one_request_witness :
  FileReads.generateSubtitles (env_answering (Some one_cue))
                              FileReads.reader_failing_on_webm
                              clipB BILINGUAL_CN_EN
  = (FileReads.Unsettled, [ReadAsDataURL clipB])
  /\ count is_transport_call
           (snd (FileReads.generateSubtitles
                   (env_answering (Some one_cue))
                   FileReads.reader_failing_on_webm
                   clipA BILINGUAL_CN_EN))
     = 1.
Proof.
  split.
  - apply (proj1 (proj2 (proj2 (proj2
             (one_read_one_request (env_answering (Some one_cue))
                                   FileReads.reader_failing_on_webm
                                   clipB BILINGUAL_CN_EN)))));
      vm_compute; reflexivity.
  - apply (proj1 (proj2
             (one_read_one_request (env_answering (Some one_cue))
                                   FileReads.reader_failing_on_webm
                                   clipA BILINGUAL_CN_EN))).
Defined.

(** X2.  When the transport rejects with an error that carries a message,
    the call rejects with that message as the [catch] block rewrites it,
    after logging the message as it came; a message with none of the
    three markers is passed on as it is, and no document is returned. *)
Theorem rejection_is_passed_on
        (env : Env) (f : Blob) (mode : TranslationMode) (message : jsstring) :
  truthy (GEMINI_API_KEY env) = true ->
  generateContent env (request_for env (generativePart env f) mode)
  = Throw message ->
  settle env f mode = Throw (classify message)
  /\ effects env f mode
     = [ReadAsDataURL f;
        GenerateContent (request_for env (generativePart env f) mode);
        ConsoleError message]
  /\ (includes (js "API key") message = false ->
      includes (js "SAFETY") message = false ->
      includes (js "429") message = false ->
      settle env f mode = Throw message).
Proof.
  intros Hkey Hrej.
  destruct (generateSubtitles_configured env f mode Hkey) as [H _].
  pose proof (effects_configured env f mode Hkey) as He.
  cbv zeta in H, He. rewrite Hrej in H, He.
  split; [exact H|]. split; [exact He|].
  intros H1 H2 H3. rewrite H. unfold classify. now rewrite H1, H2, H3.
Qed.

Lemma rejection_is_passed_on_witness :
  let env := {| API_KEY := Some (js "key");
                readAsDataURL := reader;
                generateContent := fun _ => Throw (js "fetch failed") |} in
  settle env clipA TO_ENGLISH = Throw (js "fetch failed").
Proof.
  intros env.
  apply (rejection_is_passed_on env clipA TO_ENGLISH (js "fetch failed"));
    vm_compute; reflexivity.
Defined.

(** X3.  The messages the [catch] block writes are not rewritten when
    they pass through it again: the classification is idempotent. *)
Theorem classify_idempotent (message : jsstring) :
  classify (classify message) = classify message.
Proof.
  unfold classify at 2 3.
  destruct (includes (js "API key") message) eqn:H1;
    [vm_compute; reflexivity|].
  destruct (includes (js "SAFETY") message) eqn:H2;
    [vm_compute; reflexivity|].
  destruct (includes (js "429") message) eqn:H3;
    [vm_compute; reflexivity|].
  unfold classify. now rewrite H1, H2, H3.
Qed.

(** *** The part made from the file *)

Lemma split_comma_free (s : jsstring) :
  comma_free s = true -> split COMMA s = [s].
Proof.
  induction s as [|c s IH]; intros H; [reflexivity|].
  cbn [comma_free forallb] in H. apply andb_true_iff in H as [Hc Hs].
  apply negb_true_iff in Hc. cbn [split]. rewrite Hc.
  change (forallb (fun c => negb (c =? COMMA)%N) s) with (comma_free s) in Hs.
  now rewrite (IH Hs).
Qed.

Lemma split_at_comma (a b : jsstring) :
  comma_free a = true -> split COMMA (a ++ COMMA :: b) = a :: split COMMA b.
Proof.
  induction a as [|c a IH]; intros H.
  - cbn [app split]. now rewrite N.eqb_refl.
  - cbn [comma_free forallb] in H. apply andb_true_iff in H as [Hc Hs].
    apply negb_true_iff in Hc. cbn [app split]. rewrite Hc.
    change (forallb (fun c => negb (c =? COMMA)%N) a) with (comma_free a) in Hs.
    now rewrite (IH Hs).
Qed.

(** X4.  The part sent for a file carries the data URL of the file
    without its header: when the URL is a header without a comma, a comma
    and a payload without a comma, the data is the payload.  A URL
    without a comma leaves the data undefined.  The type is that of the
    file, and [audio/mp3] when the file has none. *)
Theorem part_carries_payload (env : Env) (f : Blob) :
  (forall header payload,
      readAsDataURL env f = header ++ COMMA :: payload ->
      comma_free header = true -> comma_free payload = true ->
      data (generativePart env f) = Some payload)
  /\ (comma_free (readAsDataURL env f) = true ->
      data (generativePart env f) = None)
  /\ (blob_type f = [] -> mimeType (generativePart env f) = js "audio/mp3")
  /\ (blob_type f <> [] -> mimeType (generativePart env f) = blob_type f).
Proof.
  unfold generativePart. cbn [data mimeType].
  split; [|split; [|split]].
  - intros header payload E Hh Hp. rewrite E.
    rewrite (split_at_comma _ _ Hh), (split_comma_free _ Hp). reflexivity.
  - intros H. now rewrite (split_comma_free _ H).
  - intros ->. reflexivity.
  - intros H. destruct (blob_type f); [contradiction|reflexivity].
Qed.

Lemma part_carries_payload_witness :
  data (generativePart env_without_key clipA) = Some (js "SUQz")
  /\ mimeType (generativePart env_without_key clipA) = js "audio/mpeg".
Proof.
  split.
  - apply (proj1 (part_carries_payload env_without_key clipA)
                 (js "data:audio/mpeg;base64") (js "SUQz"));
      vm_compute; reflexivity.
  - apply (proj2 (proj2 (proj2 (part_carries_payload env_without_key clipA)))).
    vm_compute. discriminate.
Defined.

(** *** The document that is returned *)

Lemma digit_not_space (c : code) : is_digit c = true -> is_space c = false.
Proof.
  unfold is_digit. intros H. apply andb_true_iff in H as [H1 H2].
  apply N.leb_le in H1. apply N.leb_le in H2.
  assert (Hc : (c = 48 \/ c = 49 \/ c = 50 \/ c = 51 \/ c = 52
                \/ c = 53 \/ c = 54 \/ c = 55 \/ c = 56 \/ c = 57)%N) by lia.
  repeat (destruct Hc as [->|Hc]; [reflexivity|]). now subst.
Qed.


(** Text without a fence and without white space at its ends is left as
    it is by the clean-up. *)
Lemma normalize_fixed (s : jsstring) :
  includes (js "```") s = false -> trimmed s -> normalize s = s.
Proof.
  intros Hclean Htrim. unfold normalize.
  rewrite (replace_fence_srt_absent _ Hclean).
  rewrite (replace_fence_absent _ Hclean).
  now apply trim_fixed.
Qed.

Lemma begins_with_digit_anchor (t : jsstring) (i : nat) :
  anchor_at t i -> begins_with_digit (skipn i t).
Proof.
  intros (a & rest & E & ds & ws & ts & -> & [Hne Hd] & _).
  destruct ds as [|d ds]; [contradiction|].
  simpl in Hd. apply andb_true_iff in Hd as [Hd _].
  rewrite E. exists d. eexists. split; [reflexivity|exact Hd].
Qed.

(** The three ways of the repair. *)
Lemma repair_ways (t : jsstring) :
  (begins_with_digit t /\ repair t = t)
  \/ (~ begins_with_digit t /\ exists i,
         anchor_at t i /\ repair t = skipn i t)
  \/ (~ begins_with_digit t /\ (forall i, ~ anchor_at t i) /\ repair t = t).
Proof.
  unfold repair. destruct (test leading_digits_re t) eqn:Ht; cbn [negb].
  - left. split; [now apply test_leading_digits|reflexivity].
  - apply test_leading_digits_false in Ht. right.
    destruct (exec cue_anchor_re t) as [[i e]|] eqn:E.
    + left. split; [exact Ht|]. exists i.
      split; [now apply (exec_anchor_some t i e)|reflexivity].
    + right. split; [exact Ht|]. split; [now apply exec_anchor_none|reflexivity].
Qed.

Lemma repair_fixed (t : jsstring) : begins_with_digit t -> repair t = t.
Proof.
  intros H. apply test_leading_digits in H. unfold repair. now rewrite H.
Qed.

Lemma repair_clean (t : jsstring) :
  includes (js "```") t = false -> includes (js "```") (repair t) = false.
Proof.
  intros H. destruct (repair_suffix t) as [i ->].
  destruct (skipn_part i t) as [pre E]. rewrite E in H.
  apply (includes_part _ pre _ []). now rewrite app_nil_r.
Qed.

Lemma repair_trimmed (t : jsstring) : trimmed t -> trimmed (repair t).
Proof.
  intros Ht.
  destruct (repair_ways t) as [[_ ->]|[(_ & i & Ha & ->)|(_ & _ & ->)]];
    try exact Ht.
  destruct Ht as [_ Hlast]. split.
  - intros c rest E. apply begins_with_digit_anchor in Ha.
    destruct Ha as (d & rest' & E' & Hd). rewrite E' in E.
    injection E as <- _. now apply digit_not_space.
  - intros c front E. apply (Hlast c (firstn i t ++ front)).
    rewrite <- app_assoc, <- E. symmetry. apply firstn_skipn.
Qed.

(** What a call can return. *)
Lemma returned_document env f mode doc :
  settle env f mode = Return doc ->
  exists answer, truthy answer = true /\ doc = repair (normalize answer).
Proof.
  intros H. destruct (truthy (GEMINI_API_KEY env)) eqn:Hkey.
  - destruct (generateSubtitles_configured env f mode Hkey) as [Hc _].
    cbv zeta in Hc.
    destruct (generateContent env _) as [resp|message]; [|congruence].
    destruct (text resp) as [t|]; [|congruence].
    destruct (truthy t) eqn:Ht; [|congruence].
    exists t. split; [exact Ht|congruence].
  - unfold settle in H. rewrite generateSubtitles_unconfigured in H
      by exact Hkey. discriminate.
Qed.

(** X5.  Every document a call returns is free of fence markers and has
    no white space at either end. *)
Theorem returned_document_is_clean
        (env : Env) (f : Blob) (mode : TranslationMode) (doc : jsstring) :
  settle env f mode = Return doc ->
  includes (js "```") doc = false /\ trimmed doc.
Proof.
  intros H. apply returned_document in H as (answer & _ & ->). split.
  - apply repair_clean, normalize_clean.
  - apply repair_trimmed, trim_trimmed.
Qed.

Lemma returned_document_is_clean_witness :
  includes (js "```") (repair (normalize chatty)) = false
  /\ trimmed (repair (normalize chatty)).
Proof.
  apply (returned_document_is_clean (env_answering (Some chatty)) clipA
                                    TO_CHINESE).
  vm_compute. reflexivity.
Defined.

(** X6.  A document that begins with a digit, has no backtick and no
    white space at its ends comes back exactly as the model sent it, and
    no warning is logged. *)
Theorem well_formed_answer_is_returned_unchanged
        (env : Env) (f : Blob) (mode : TranslationMode) (answer : jsstring) :
  truthy (GEMINI_API_KEY env) = true ->
  generateContent env (request_for env (generativePart env f) mode)
  = Return {| text := Some answer |} ->
  begins_with_digit answer ->
  backtick_free answer = true ->
  trimmed answer ->
  settle env f mode = Return answer
  /\ effects env f mode
     = [ReadAsDataURL f;
        GenerateContent (request_for env (generativePart env f) mode)].
Proof.
  intros Hkey Hmodel Hdigit Hfree Htrim.
  assert (Hn : normalize answer = answer)
    by (apply normalize_fixed; [now apply backtick_free_clean|exact Htrim]).
  assert (Hne : truthy answer = true)
    by (destruct Hdigit as (c & rest & -> & _); reflexivity).
  destruct (generateSubtitles_configured env f mode Hkey) as [H _].
  pose proof (effects_configured env f mode Hkey) as He.
  cbv zeta in H, He. rewrite Hmodel in H, He. cbn [text] in H, He.
  rewrite Hne in H, He. rewrite Hn in H, He.
  rewrite (repair_fixed _ Hdigit) in H.
  apply test_leading_digits in Hdigit. rewrite Hdigit in He.
  now split.
Qed.

Lemma well_formed_answer_is_returned_unchanged_witness :
  settle (env_answering (Some one_cue)) clipA TO_ENGLISH = Return one_cue.
Proof.
  apply (well_formed_answer_is_returned_unchanged
           (env_answering (Some one_cue)) clipA TO_ENGLISH one_cue).
  - reflexivity.
  - reflexivity.
  - apply test_leading_digits. vm_compute. reflexivity.
  - vm_compute. reflexivity.
  - replace one_cue with (trim one_cue) by (vm_compute; reflexivity).
    apply trim_trimmed.
Defined.

(** X7.  The post-processing of the answer, clean-up then repair, is
    idempotent: a returned document put through it again comes out as it
    is. *)
Theorem post_processing_idempotent (answer : jsstring) :
  repair (normalize (repair (normalize answer))) = repair (normalize answer).
Proof.
  set (doc := repair (normalize answer)).
  assert (Hclean : includes (js "```") doc = false)
    by apply repair_clean, normalize_clean.
  assert (Htrim : trimmed doc) by apply repair_trimmed, trim_trimmed.
  rewrite (normalize_fixed doc Hclean Htrim). unfold doc.
  destruct (repair_ways (normalize answer))
    as [[Hd E]|[(_ & i & Ha & E)|(Hd & Hnone & E)]]; rewrite E.
  - now apply repair_fixed.
  - apply repair_fixed. now apply begins_with_digit_anchor.
  - rewrite <- E at 2. reflexivity.
Qed.

(** X8.  The result of the repair begins with a decimal digit, except when
    the text neither begins with one nor holds an anchor: then, and only
    then, text that does not look like a cue is passed on. *)
Theorem repair_yields_leading_digit (t : jsstring) :
  begins_with_digit (repair t)
  \/ (repair t = t /\ ~ begins_with_digit t /\ forall i, ~ anchor_at t i).
Proof.
  destruct (repair_ways t) as [[Hd E]|[(_ & i & Ha & E)|(Hd & Hnone & E)]].
  - left. now rewrite E.
  - left. rewrite E. now apply begins_with_digit_anchor.
  - right. auto.
Qed.


Lemma blank_backtick_free (s : jsstring) :
  forallb is_space s = true -> backtick_free s = true.
Proof.
  induction s as [|c s IH]; intros H; [reflexivity|].
  simpl in H. apply andb_true_iff in H as [Hc Hs].
  cbn [backtick_free forallb]. apply andb_true_iff. split; [|now apply IH].
  apply negb_true_iff. destruct (c =? BACKTICK)%N eqn:E; [|reflexivity].
  apply N.eqb_eq in E. subst c. discriminate.
Qed.

Lemma normalize_blank (s : jsstring) :
  forallb is_space s = true -> normalize s = [].
Proof.
  intros Hblank. unfold normalize.
  pose proof (backtick_free_clean _ (blank_backtick_free _ Hblank)) as Hc.
  rewrite (replace_fence_srt_absent _ Hc), (replace_fence_absent _ Hc).
  now apply trim_blank.
Qed.

(** X9.  An answer made of white space only is not taken for an empty
    answer: the call does not reject, it returns the empty document. *)
Theorem blank_answer_gives_empty_document
        (env : Env) (f : Blob) (mode : TranslationMode) (answer : jsstring) :
  truthy (GEMINI_API_KEY env) = true ->
  generateContent env (request_for env (generativePart env f) mode)
  = Return {| text := Some answer |} ->
  answer <> [] ->
  forallb is_space answer = true ->
  settle env f mode = Return [].
Proof.
  intros Hkey Hmodel Hne Hblank.
  destruct (generateSubtitles_configured env f mode Hkey) as [H _].
  cbv zeta in H. rewrite Hmodel in H. cbn [text] in H.
  destruct answer as [|c answer]; [contradiction|]. cbn [truthy] in H.
  rewrite (normalize_blank _ Hblank) in H. exact H.
Qed.

Lemma blank_answer_gives_empty_document_witness :
  settle (env_answering (Some [32%N; LF])) clipA TO_ENGLISH = Return [].
Proof.
  apply (blank_answer_gives_empty_document
           (env_answering (Some [32%N; LF])) clipA TO_ENGLISH [32%N; LF]).
  - reflexivity.
  - reflexivity.
  - discriminate.
  - reflexivity.
Defined.

End ServiceMore.

(* ------------------------------------------------------------------ *)
(** ** More about the component *)

Module AppMore.
Import JS Spec Types GeminiService ServiceFacts App AppFacts Samples Sessions.

Lemma run_app env actions a w :
  run env w (actions ++ [a]) = step env (run env w actions) a.
Proof. apply run_snoc. Qed.

(** An invariant of the steps holds in every state that is reached. *)
Lemma reach_invariant (env : Env) (P : World -> Prop) :
  P init -> (forall w a, P w -> P (step env w a)) ->
  forall actions, P (run env init actions).
Proof.
  intros Hinit Hstep actions.
  induction actions as [|a actions IH] using rev_ind; [exact Hinit|].
  rewrite run_snoc. now apply Hstep.
Qed.

(** *** Object URLs *)

Lemma revoke_subset u v urls : In v (revoke u urls) -> In v urls.
Proof. unfold revoke. intros H. now apply in_remove in H. Qed.

Lemma revoke_fresh u urls : ~ In u urls -> revoke u (u :: urls) = urls.
Proof.
  intros H. unfold revoke. cbn [remove].
  destruct (Nat.eq_dec u u) as [_|Hne]; [|contradiction].
  now apply notin_remove.
Qed.

Lemma step_issued env w a : issued w -> issued (step env w a).
Proof.
  unfold issued. intros Hw.
  destruct a as [f n| | | |m| | |i]; cbn [step].
  - intros u [<-|H]; cbn [nextURL handleAudioSelected] in *; [lia|].
    apply Hw in H. lia.
  - destruct (file_card_rendered w); [|exact Hw].
    intros u H. cbn [clearAudio objectURLs nextURL] in *.
    apply Hw. destruct (url (audioState w)); [|exact H].
    now apply revoke_subset in H.
  - destruct (controls_rendered w); [|exact Hw].
    unfold handleProcess. destruct (file (audioState w)); exact Hw.
  - destruct (error_rendered w); [|exact Hw].
    unfold handleProcess. destruct (file (audioState w)); exact Hw.
  - destruct (controls_rendered w); exact Hw.
  - destruct (result_rendered w); exact Hw.
  - destruct (result_rendered w); [|exact Hw].
    unfold handleDownload. destruct (negb _); [exact Hw|].
    intros u H. cbn [objectURLs nextURL] in *.
    apply revoke_subset in H. destruct H as [<-|H]; [lia|].
    apply Hw in H. lia.
  - destruct (nth_error (pending w) i); [|exact Hw].
    unfold resume. destruct (settle env _ _); exact Hw.
Qed.

Lemma init_issued : issued init.
Proof. intros u []. Qed.

(** X10.  In every state the component reaches, a download leaves the
    live object URLs as they were: the URL it creates for the text is
    revoked before it returns, and no other is touched. *)
Theorem download_leaves_no_url (env : Env) (actions : list Action) :
  objectURLs (step env (run env init actions) ClickDownload)
  = objectURLs (run env init actions).
Proof.
  pose proof (reach_invariant env issued init_issued (step_issued env) actions)
    as Hissued.
  cbn [step]. destruct (result_rendered _); [|reflexivity].
  unfold handleDownload. destruct (negb _); [reflexivity|].
  cbn [objectURLs]. apply revoke_fresh.
  intros H. apply Hissued in H. lia.
Qed.

(** The live URLs are those the state refers to, in an orderly session. *)
Lemma step_referenced env w a :
  issued w -> objectURLs w = referenced w ->
  match a with
  | AudioSelected _ _ => url (audioState w) = None
  | _ => True
  end ->
  objectURLs (step env w a) = referenced (step env w a).
Proof.
  unfold referenced. intros Hissued Hw Ha.
  destruct a as [f n| | | |m| | |i]; cbn [step].
  - cbn. rewrite Ha in Hw. now rewrite Hw.
  - destruct (file_card_rendered w); [|exact Hw].
    cbn. destruct (url (audioState w)) as [u|]; [|exact Hw].
    rewrite Hw. unfold revoke. cbn.
    now destruct (Nat.eq_dec u u).
  - destruct (controls_rendered w); [|exact Hw].
    unfold handleProcess. destruct (file (audioState w)); exact Hw.
  - destruct (error_rendered w); [|exact Hw].
    unfold handleProcess. destruct (file (audioState w)); exact Hw.
  - destruct (controls_rendered w); exact Hw.
  - destruct (result_rendered w); exact Hw.
  - destruct (result_rendered w); [|exact Hw].
    unfold handleDownload. destruct (negb _); [exact Hw|].
    cbn [objectURLs audioState]. rewrite <- Hw. apply revoke_fresh.
    intros H. apply Hissued in H. lia.
  - destruct (nth_error (pending w) i); [|exact Hw].
    unfold resume. destruct (settle env _ _); exact Hw.
Qed.

Lemma run_referenced env actions :
  forall w, issued w -> objectURLs w = referenced w ->
            orderly env w actions ->
            objectURLs (run env w actions) = referenced (run env w actions).
Proof.
  induction actions as [|a actions IH]; intros w Hi Hw Ho; [exact Hw|].
  destruct Ho as [Ha Ho]. rewrite run_cons. apply IH; [|  |exact Ho].
  - now apply step_issued.
  - now apply step_referenced.
Qed.

(** X11.  In a session in which a source is selected only while none is
    (each source is cleared before the next is chosen), the live object
    URLs are exactly the one the state refers to, if any: nothing
    accumulates, whatever else is done in between. *)
Theorem orderly_session_holds_one_url (env : Env) (actions : list Action) :
  orderly env init actions ->
  objectURLs (run env init actions) = referenced (run env init actions).
Proof.
  intros Ho. apply run_referenced; [apply init_issued|reflexivity|exact Ho].
Qed.

Lemma orderly_session_holds_one_url_witness :
  let actions := [AudioSelected clipA (js "a.mp3"); ClickGenerate; ClickClear;
                  AudioSelected clipB (js "b.webm")] in
  objectURLs (run env_without_key init actions)
  = referenced (run env_without_key init actions).
Proof.
  intros actions.
  apply (orderly_session_holds_one_url env_without_key actions).
  cbn. auto.
Defined.

(** *** The processing flag *)

Lemma step_busy env w a : busy_is_backed w -> busy_is_backed (step env w a).
Proof.
  unfold busy_is_backed. intros Hw.
  destruct a as [f n| | | |m| | |i]; cbn [step].
  - discriminate.
  - destruct (file_card_rendered w); [discriminate|exact Hw].
  - destruct (controls_rendered w); [|exact Hw].
    unfold handleProcess. destruct (file (audioState w)) eqn:Ef;
      [|intros Hp; destruct (Hw Hp) as (_ & Hc & _); now elim Hc].
    intros _. cbn. rewrite Ef. repeat split; [discriminate|].
    now destruct (pending w).
  - destruct (error_rendered w); [|exact Hw].
    unfold handleProcess. destruct (file (audioState w)) eqn:Ef;
      [|intros Hp; destruct (Hw Hp) as (_ & Hc & _); now elim Hc].
    intros _. cbn. rewrite Ef. repeat split; [discriminate|].
    now destruct (pending w).
  - destruct (controls_rendered w); exact Hw.
  - destruct (result_rendered w); exact Hw.
  - destruct (result_rendered w); [|exact Hw].
    unfold handleDownload. destruct (negb _); exact Hw.
  - destruct (nth_error (pending w) i); [|exact Hw].
    unfold resume. destruct (settle env _ _); discriminate.
Qed.

(** X12.  In every state the component reaches, while it shows the
    spinner (it is processing) no error is set, a source is selected and
    an invocation is pending: the spinner is never shown with nothing to
    wait for, nor together with the error panel. *)
Theorem processing_is_backed (env : Env) (actions : list Action) :
  isProcessing (processingState (run env init actions)) = true ->
  error (processingState (run env init actions)) = None
  /\ file (audioState (run env init actions)) <> None
  /\ pending (run env init actions) <> [].
Proof.
  apply (reach_invariant env busy_is_backed); [discriminate|apply step_busy].
Qed.

Lemma processing_is_backed_witness :
  let actions := [AudioSelected clipA (js "a.mp3"); ClickGenerate] in
  error (processingState (run env_without_key init actions)) = None
  /\ file (audioState (run env_without_key init actions)) <> None
  /\ pending (run env_without_key init actions) <> [].
Proof.
  intros actions.
  apply (processing_is_backed env_without_key actions). reflexivity.
Defined.

End AppMore.

(* ------------------------------------------------------------------ *)
(** ** The service and the component together *)

Module EndToEnd.
Import JS Spec Types GeminiService ServiceFacts ServiceMore.
Import App AppFacts Samples Download.

(** A selection, a choice of mode, a click on the generate button and the
    settling of the invocation. *)
Lemma one_round env f n m :
  App.run env init [AudioSelected f n; ChangeMode m; ClickGenerate; Settle 0]
  = resume (forget (handleProcess
                      (setSelectedMode (handleAudioSelected init f n) m)) 0)
           (settle env f m).
Proof. reflexivity. Qed.



(** X14.  Without a key, the same round ends with the configuration
    message in the error panel, no document and nothing pending, and a
    click on the retry button invokes again with the same source and
    mode. *)
Theorem missing_key_ends_in_error_with_retry
        (env : Env) (f : Blob) (n : jsstring) (m : TranslationMode) :
  truthy_opt (API_KEY env) = false ->
  let w := App.run env init
                   [AudioSelected f n; ChangeMode m; ClickGenerate; Settle 0] in
  processingState w
  = {| isProcessing := false; progress := [];
       error := Some missing_key_message |}
  /\ error_rendered w = true
  /\ srtContent w = []
  /\ pending w = []
  /\ pending (step env w ClickRetry) = [ {| inv_file := f; inv_mode := m |} ]
  /\ isProcessing (processingState (step env w ClickRetry)) = true.
Proof.
  intros Hkey w. unfold w. rewrite one_round.
  unfold settle. rewrite generateSubtitles_unconfigured
    by now rewrite (key_unset env Hkey).
  cbn [fst resume].
  replace (or_else missing_key_message (js "发生未知错误，请重试。"))
    with missing_key_message by (vm_compute; reflexivity).
  split; [reflexivity|]. split; [vm_compute; reflexivity|].
  split; [reflexivity|]. split; [reflexivity|].
  cbn [step]. unfold error_rendered at 1. cbn [processingState error].
  replace (truthy_opt (Some missing_key_message)) with true
    by (vm_compute; reflexivity).
  split; reflexivity.
Qed.

Lemma missing_key_ends_in_error_with_retry_witness :
  error_rendered (App.run env_without_key init
                          [AudioSelected clipA (js "a.mp3");
                           ChangeMode TO_CHINESE; ClickGenerate; Settle 0])
  = true.
Proof.
  apply (missing_key_ends_in_error_with_retry env_without_key clipA
                                              (js "a.mp3") TO_CHINESE).
  reflexivity.
Defined.

(** X15.  When the answer is white space only, the round ends as a
    success with an empty document: the component is back where it was
    after the selection, with the generate button rendered and neither a
    result nor an error to show. *)
Theorem blank_answer_ends_silently
        (env : Env) (f : Blob) (n : jsstring) (m : TranslationMode)
        (answer : jsstring) :
  truthy (GEMINI_API_KEY env) = true ->
  generateContent env (request_for env (generativePart env f) m)
  = Return {| text := Some answer |} ->
  answer <> [] ->
  forallb is_space answer = true ->
  let w := App.run env init
                   [AudioSelected f n; ChangeMode m; ClickGenerate; Settle 0] in
  srtContent w = []
  /\ error (processingState w) = None
  /\ isProcessing (processingState w) = false
  /\ phase w = Ready
  /\ controls_rendered w = true
  /\ result_rendered w = false
  /\ error_rendered w = false
  /\ download w = None.
Proof.
  intros Hkey Hmodel Hne Hblank w. unfold w. rewrite one_round.
  destruct (generateSubtitles_configured env f m Hkey) as [H _].
  cbv zeta in H. rewrite Hmodel in H. cbn [text] in H.
  destruct answer as [|c answer]; [contradiction|]. cbn [truthy] in H.
  rewrite (normalize_blank _ Hblank) in H.
  rewrite H. repeat split.
Qed.

Lemma blank_answer_ends_silently_witness :
  phase (App.run (env_answering (Some [32%N; LF])) init
                 [AudioSelected clipA (js "a.mp3"); ChangeMode TO_ENGLISH;
                  ClickGenerate; Settle 0])
  = Ready.
Proof.
  apply (blank_answer_ends_silently (env_answering (Some [32%N; LF])) clipA
                                    (js "a.mp3") TO_ENGLISH [32%N; LF]).
  - reflexivity.
  - reflexivity.
  - discriminate.
  - reflexivity.
Defined.

End EndToEnd.

(* ------------------------------------------------------------------ *)
(** ** The name of the downloaded file *)

Module DownloadFacts.
Import JS RegExp Spec JSFacts MatcherFacts RepairFacts Types Download.

(** The end index the matcher returns is that of a string of the
    pattern. *)
Lemma star_value (p : code -> bool) :
  forall s pos k e,
    star p pos s k = Some e ->
    exists s1 s2, s = s1 ++ s2 /\ forallb p s1 = true
                  /\ k (pos + List.length s1) s2 = Some e.
Proof.
  induction s as [|c s IH]; intros pos k e H; simpl in H.
  - exists [], []. simpl. now rewrite Nat.add_0_r.
  - destruct (p c) eqn:Hc.
    + destruct (star p (S pos) s k) as [e'|] eqn:Hs.
      * injection H as <-.
        apply IH in Hs as (s1 & s2 & -> & Hp & Hk).
        exists (c :: s1), s2. simpl. rewrite Hc, Hp.
        now rewrite Nat.add_succ_r.
      * exists [], (c :: s). simpl. now rewrite Nat.add_0_r.
    + exists [], (c :: s). simpl. now rewrite Nat.add_0_r.
Qed.

Lemma run_value (r : regex) :
  bol_free r = true ->
  forall pos s k e,
    RegExp.run r pos s k = Some e ->
    exists s1 s2, s = s1 ++ s2 /\ matches r s1
                  /\ k (pos + List.length s1) s2 = Some e.
Proof.
  induction r as [| |p|r1 IH1 r2 IH2|p]; intros Hb pos s k e H; simpl in *.
  - exists [], s. simpl. rewrite Nat.add_0_r.
    repeat split; [constructor|assumption].
  - discriminate.
  - destruct s as [|c s]; [discriminate|].
    destruct (p c) eqn:Hc; [|discriminate].
    exists [c], s. simpl. rewrite Nat.add_1_r.
    repeat split; [now constructor|assumption].
  - apply andb_true_iff in Hb as [Hb1 Hb2].
    apply (IH1 Hb1) in H as (s1 & s2 & -> & Hm1 & H).
    apply (IH2 Hb2) in H as (s3 & s4 & -> & Hm2 & H).
    exists (s1 ++ s3), s4. rewrite <- app_assoc, length_app, Nat.add_assoc.
    repeat split; [now constructor|assumption].
  - apply star_value in H as (s1 & s2 & -> & Hp & Hk).
    exists s1, s2. repeat split; [now constructor|assumption].
Qed.

(** A pattern followed by [$] matches the whole rest of the subject. *)
Lemma match_to_end_value (r : regex) pos s e :
  bol_free r = true ->
  match_to_end r pos s = Some e -> matches r s /\ e = pos + List.length s.
Proof.
  intros Hb H. apply (run_value r Hb) in H as (s1 & s2 & -> & Hm & Hk).
  destruct s2; [|discriminate]. injection Hk as <-.
  now rewrite app_nil_r.
Qed.

Lemma match_to_end_whole (r : regex) pos s :
  bol_free r = true -> matches r s ->
  match_to_end r pos s = Some (pos + List.length s).
Proof.
  intros Hb Hm.
  destruct (match_to_end r pos s) as [e|] eqn:E.
  - apply match_to_end_value in E as [_ ->]; [reflexivity|exact Hb].
  - exfalso. revert E. apply (run_spec r Hb). exists s, [].
    rewrite app_nil_r. repeat split; [exact Hm|discriminate].
Qed.

(** [search_by] finds the first index at which the matcher succeeds. *)
Lemma search_by_some (m : nat -> jsstring -> option nat) :
  forall s pos i e, search_by m pos s = Some (i, e) ->
    exists j, i = pos + j /\ j <= List.length s
              /\ m i (skipn j s) = Some e.
Proof.
  induction s as [|c s IH]; intros pos i e H; simpl in H;
    destruct (m pos _) eqn:E; try discriminate.
  - injection H as <- <-. exists 0. rewrite Nat.add_0_r. auto.
  - injection H as <- <-. exists 0. rewrite Nat.add_0_r.
    repeat split; [simpl; lia|assumption].
  - apply IH in H as (j & -> & Hj & Hm).
    exists (S j). rewrite Nat.add_succ_r.
    repeat split; [simpl; lia|assumption].
Qed.

Lemma search_by_first (m : nat -> jsstring -> option nat) :
  forall s pos j e,
    j <= List.length s ->
    m (pos + j) (skipn j s) = Some e ->
    (forall j', j' < j -> m (pos + j') (skipn j' s) = None) ->
    search_by m pos s = Some (pos + j, e).
Proof.
  induction s as [|c s IH]; intros pos j e Hj Hm Hmin.
  - simpl in Hj. replace j with 0 in * by lia.
    simpl in *. rewrite Nat.add_0_r in *. now rewrite Hm.
  - destruct j as [|j].
    + simpl in *. rewrite Nat.add_0_r in *. now rewrite Hm.
    + cbn [search_by].
      pose proof (Hmin 0 (Nat.lt_0_succ j)) as H0.
      simpl in H0. rewrite Nat.add_0_r in H0. rewrite H0.
      rewrite Nat.add_succ_r. apply (IH (S pos) j e).
      * simpl in Hj. lia.
      * simpl in Hm. now rewrite Nat.add_succ_r in Hm.
      * intros j' Hlt. specialize (Hmin (S j') (proj1 (Nat.succ_lt_mono _ _) Hlt)).
        simpl in Hmin. now rewrite Nat.add_succ_r in Hmin.
Qed.

(** The strings of the pattern of the extension. *)
Lemma matches_extension (x : jsstring) :
  matches extension_re x <->
  exists ext, x = DOT :: ext /\ ext <> [] /\ forallb not_slash_dot ext = true.
Proof.
  unfold extension_re. split.
  - intros H. apply matches_seq_inv in H as (d & ext & -> & Hd & He).
    apply matches_exactly in Hd. subst d. apply matches_plus in He.
    exists ext. now split.
  - intros (ext & -> & He). change (DOT :: ext) with ([DOT] ++ ext).
    constructor; [now apply matches_exactly|now apply matches_plus].
Qed.

Lemma extension_bol_free : bol_free extension_re = true.
Proof. reflexivity. Qed.

Lemma dot_is_excluded : not_slash_dot DOT = false.
Proof. reflexivity. Qed.

(** Where the pattern matches in a name with an extension. *)
Lemma search_extension (base ext : jsstring) :
  ext <> [] -> forallb not_slash_dot ext = true ->
  search_by (match_to_end extension_re) 0 (base ++ DOT :: ext)
  = Some (List.length base, List.length (base ++ DOT :: ext)).
Proof.
  intros Hne Hext.
  assert (Hskip : skipn (List.length base) (base ++ DOT :: ext) = DOT :: ext).
  { now rewrite skipn_app, skipn_all, Nat.sub_diag. }
  change (List.length base) with (0 + List.length base) at 1.
  replace (List.length (base ++ DOT :: ext))
    with (0 + List.length base + List.length (DOT :: ext))
    by (rewrite length_app; reflexivity).
  apply search_by_first.
  - rewrite length_app. lia.
  - rewrite Hskip. apply match_to_end_whole; [reflexivity|].
    apply matches_extension. exists ext. auto.
  - intros j Hlt.
    destruct (match_to_end extension_re (0 + j) _) as [e|] eqn:E;
      [|reflexivity].
    exfalso. apply match_to_end_value in E as [Hm _]; [|reflexivity].
    apply matches_extension in Hm as (ext' & E' & _ & Hext').
    rewrite skipn_app in E'.
    replace (j - List.length base) with 0 in E' by lia. cbn [skipn] in E'.
    destruct (skipn j base) as [|c rest] eqn:Hs.
    + apply (f_equal (@List.length _)) in Hs.
      rewrite length_skipn in Hs. simpl in Hs. lia.
    + cbn [app] in E'. injection E' as _ <-.
      rewrite forallb_app in Hext'. cbn [forallb] in Hext'.
      rewrite dot_is_excluded in Hext'.
      now rewrite andb_false_r in Hext'.
Qed.

Lemma downloadName_extension (base ext : jsstring) :
  ext <> [] -> forallb not_slash_dot ext = true ->
  downloadName (base ++ DOT :: ext) = base ++ js ".srt".
Proof.
  intros Hne Hext. unfold downloadName, replace_first_to_end.
  rewrite (search_extension base ext Hne Hext).
  rewrite firstn_app, firstn_all, Nat.sub_diag, skipn_all.
  cbn [firstn app]. now rewrite !app_nil_r.
Qed.

(** X16.  The download is named after the source with its last extension
    replaced by [.srt]: whatever the base, the extension being one or more
    code units after a dot, none of them a dot or a slash. *)
Theorem download_name_replaces_extension (name base ext : jsstring) :
  has_extension name base ext -> downloadName name = base ++ js ".srt".
Proof. intros (-> & Hne & Hext). now apply downloadName_extension. Qed.

Lemma download_name_replaces_extension_witness :
  downloadName (js "talk.v2.mp3") = js "talk.v2" ++ js ".srt".
Proof.
  apply (download_name_replaces_extension (js "talk.v2.mp3") (js "talk.v2")
                                          (js "mp3")).
  unfold has_extension. repeat split. discriminate.
Defined.

(** X17.  A name without such an extension (no dot, a dot at the very
    end, or a slash after the last dot) is kept whole, and [.srt] is put
    after it. *)
Theorem download_name_keeps_name_without_extension (name : jsstring) :
  (forall base ext, ~ has_extension name base ext) ->
  downloadName name = name ++ js ".srt".
Proof.
  intros Hnone. unfold downloadName, replace_first_to_end.
  destruct (search_by (match_to_end extension_re) 0 name) as [[i e]|] eqn:E;
    [|reflexivity].
  exfalso. apply search_by_some in E as (j & -> & _ & Hm).
  apply match_to_end_value in Hm as [Hm _]; [|reflexivity].
  apply matches_extension in Hm as (ext & Hs & Hne & Hext).
  apply (Hnone (firstn j name) ext). unfold has_extension.
  repeat split; try assumption.
  rewrite <- Hs. symmetry. apply firstn_skipn.
Qed.

Lemma no_dot_no_extension (name : jsstring) :
  existsb (N.eqb DOT) name = false ->
  forall base ext, ~ has_extension name base ext.
Proof.
  intros H base ext (-> & _). rewrite existsb_app in H.
  cbn [existsb] in H. rewrite N.eqb_refl in H.
  now rewrite orb_true_r in H.
Qed.

Lemma download_name_keeps_name_without_extension_witness :
  downloadName (js "README") = js "README" ++ js ".srt".
Proof.
  apply (download_name_keeps_name_without_extension (js "README")).
  apply no_dot_no_extension. vm_compute. reflexivity.
Defined.

End DownloadFacts.

(* ------------------------------------------------------------------ *)
(** ** Facts about [AudioInput] *)

Module AudioInputFacts.
Import JS RegExp Spec JSFacts MatcherFacts Types AudioInput.
Import Download DownloadFacts.

(** *** The display of the time *)

Lemma codes_round_trip (u : Decimal.uint) :
  uint_of_codes (codes_of_uint u) = Some u.
Proof. induction u; simpl; try rewrite IHu; reflexivity. Qed.

Lemma codes_are_digits (u : Decimal.uint) :
  forallb is_digit (codes_of_uint u) = true.
Proof. induction u; simpl; try rewrite IHu; reflexivity. Qed.

Lemma codes_nil (u : Decimal.uint) : codes_of_uint u = [] -> u = Decimal.Nil.
Proof. destruct u; simpl; intros H; reflexivity || discriminate. Qed.

Lemma toString_nonneg (n : Z) :
  (0 <= n)%Z -> toString n = codes_of_uint (N.to_uint (Z.to_N n)).
Proof. destruct n as [|p|p]; intros H; [reflexivity|reflexivity|lia]. Qed.

Lemma toString_digits (n : Z) :
  (0 <= n)%Z -> forallb is_digit (toString n) = true.
Proof. intros H. rewrite (toString_nonneg n H). apply codes_are_digits. Qed.

Lemma toString_nonempty (n : Z) : toString n <> [].
Proof.
  destruct n as [|p|p]; try discriminate.
  unfold toString. cbn [Z.to_int]. intros H. apply codes_nil in H.
  pose proof (DecimalPos.Unsigned.of_to p) as E. rewrite H in E.
  discriminate E.
Qed.

Lemma read_toString (n : Z) :
  (0 <= n)%Z -> read_number (toString n) = Some n.
Proof.
  intros Hn. unfold read_number. destruct (toString n) eqn:E.
  - now apply toString_nonempty in E.
  - rewrite <- E, (toString_nonneg n Hn), codes_round_trip.
    cbn [option_map]. f_equal. unfold Z.of_uint.
    change (Pos.of_uint (N.to_uint (Z.to_N n)))
      with (N.of_uint (N.to_uint (Z.to_N n))).
    rewrite DecimalN.Unsigned.of_to. lia.
Qed.

Lemma digit_not_colon (c : code) : is_digit c = true -> (c =? COLON)%N = false.
Proof.
  unfold is_digit, COLON. intros H. apply andb_true_iff in H as [_ H].
  apply N.leb_le in H. apply N.eqb_neq. lia.
Qed.

Lemma split_colon_free (s : jsstring) :
  forallb is_digit s = true -> split COLON s = [s].
Proof.
  induction s as [|c s IH]; intros H; [reflexivity|].
  simpl in H. apply andb_true_iff in H as [Hc Hs].
  cbn [split]. rewrite (digit_not_colon c Hc). now rewrite (IH Hs).
Qed.

Lemma split_at_colon (a b : jsstring) :
  forallb is_digit a = true ->
  split COLON (a ++ COLON :: b) = a :: split COLON b.
Proof.
  induction a as [|c a IH]; intros H.
  - cbn [app split]. now rewrite N.eqb_refl.
  - simpl in H. apply andb_true_iff in H as [Hc Hs].
    cbn [app split]. rewrite (digit_not_colon c Hc). now rewrite (IH Hs).
Qed.

(** The seconds, which are below sixty, are shown on two digits that
    read back as the seconds. *)
Lemma seconds_on_two_digits (k : Z) :
  (0 <= k < 60)%Z ->
  exists d1 d2,
    padStart 2 48%N (toString k) = [d1; d2]
    /\ is_digit d1 = true /\ is_digit d2 = true
    /\ read_number [d1; d2] = Some k.
Proof.
  intros Hk.
  assert (Hall : forallb
            (fun k => match padStart 2 48%N (toString k) with
                      | [d1; d2] =>
                        is_digit d1 && is_digit d2
                        && match read_number [d1; d2] with
                           | Some k' => Z.eqb k' k
                           | None => false
                           end
                      | _ => false
                      end) (map Z.of_nat (seq 0 60)) = true)
    by (vm_compute; reflexivity).
  rewrite forallb_forall in Hall.
  specialize (Hall k).
  assert (Hin : In k (map Z.of_nat (seq 0 60))).
  { apply in_map_iff. exists (Z.to_nat k). split; [lia|].
    apply in_seq. lia. }
  specialize (Hall Hin).
  destruct (padStart 2 48%N (toString k)) as [|d1 [|d2 [|d3 r]]];
    try discriminate.
  apply andb_true_iff in Hall as [Hd Hr].
  apply andb_true_iff in Hd as [Hd1 Hd2].
  destruct (read_number [d1; d2]) as [k'|] eqn:Er; [|discriminate].
  apply Z.eqb_eq in Hr. subst k'. exists d1, d2.
  repeat split; assumption.
Qed.

(** Below zero the display is not of that form: the minutes are rounded
    down, the remainder keeps the sign, and the padding counts the minus
    sign. *)
Lemma format_time_below_zero : formatTime (-5) = js "-1:-5".
Proof. reflexivity. Qed.

(** X18.  The time, a number of seconds that is a safe integer and not
    negative, as the timer counts it, is displayed as the minutes in
    decimal, a colon, and the seconds on exactly two digits; the display
    reads back as the number of seconds, so that two different times are
    never displayed alike. *)
Theorem format_time_reads_back (seconds : Z) :
  (0 <= seconds <= MAX_SAFE_INTEGER)%Z ->
  (exists d1 d2,
      formatTime seconds = toString (seconds / 60) ++ [COLON; d1; d2]
      /\ is_digit d1 = true /\ is_digit d2 = true)
  /\ forallb is_digit (toString (seconds / 60)) = true
  /\ read_time (formatTime seconds) = Some seconds
  /\ (forall other,
         (0 <= other <= MAX_SAFE_INTEGER)%Z ->
         formatTime other = formatTime seconds -> other = seconds).
Proof.
  assert (Hread : forall s, (0 <= s)%Z ->
            (exists d1 d2,
                formatTime s = toString (s / 60) ++ [COLON; d1; d2]
                /\ is_digit d1 = true /\ is_digit d2 = true)
            /\ read_time (formatTime s) = Some s).
  { intros s Hs. unfold formatTime. change (js ":") with [COLON].
    assert (Hq : (0 <= s / 60)%Z) by (apply Z.div_pos; lia).
    assert (Hrem : Z.rem s 60 = (s mod 60)%Z)
      by (apply Z.rem_mod_nonneg; lia).
    destruct (seconds_on_two_digits (Z.rem s 60))
      as (d1 & d2 & -> & H1 & H2 & Hr);
      [rewrite Hrem; apply Z.mod_pos_bound; lia|].
    split; [exists d1, d2; auto|].
    unfold read_time. cbn [app].
    rewrite split_at_colon by now apply toString_digits.
    rewrite split_colon_free by (simpl; now rewrite H1, H2).
    rewrite (read_toString _ Hq), Hr. f_equal.
    rewrite Hrem. pose proof (Z.div_mod s 60). lia. }
  intros [Hlo Hhi].
  destruct (Hread seconds Hlo) as [Hshape Hback].
  split; [exact Hshape|].
  split; [apply toString_digits, Z.div_pos; lia|].
  split; [exact Hback|].
  intros other [Ho _] E.
  destruct (Hread other Ho) as [_ Hother].
  rewrite E, Hback in Hother. now injection Hother.
Qed.

Lemma format_time_reads_back_witness :
  formatTime 125 = js "2:05" /\ read_time (js "2:05") = Some 125%Z.
Proof.
  destruct (format_time_reads_back 125) as (_ & _ & H & _).
  - unfold MAX_SAFE_INTEGER. lia.
  - split; [reflexivity|exact H].
Defined.

(** *** The name of a recording *)

Lemma replace_colon_from (d : code) :
  forall s pos,
    replace_from colon_re [d] 0 pos s
    = map (fun c => if (COLON =? c)%N then d else c) s.
Proof.
  induction s as [|c s IH]; intros pos; [reflexivity|].
  cbn [replace_from map]. unfold match_at, colon_re. cbn [RegExp.run].
  unfold exactly at 1. destruct (COLON =? c)%N.
  - replace (S pos - pos) with 1 by lia. cbn [app]. f_equal. apply IH.
  - f_equal. apply IH.
Qed.

Lemma dashes_have_no_colon (s : jsstring) :
  existsb (N.eqb COLON)
          (map (fun c => if (COLON =? c)%N then 45%N else c) s) = false.
Proof.
  induction s as [|c s IH]; [reflexivity|].
  cbn [map existsb]. rewrite IH, orb_false_r.
  destruct (COLON =? c)%N eqn:E; [reflexivity|exact E].
Qed.

Lemma stamp_is_mapped (iso : jsstring) :
  replace colon_re (js "-") (firstn 19 iso)
  = map (fun c => if (COLON =? c)%N then 45%N else c) (firstn 19 iso).
Proof. unfold replace. change (js "-") with [45%N]. apply replace_colon_from. Qed.

(** X19.  Whatever the date, the name given to a recording holds no
    colon, and it is as long as its two fixed parts and the first
    nineteen code units of the date. *)
Theorem recording_name_has_no_colon (iso : jsstring) :
  existsb (N.eqb COLON) (recordingFileName iso) = false
  /\ List.length (recordingFileName iso)
     = 3 + Nat.min 19 (List.length iso) + 5.
Proof.
  unfold recordingFileName. rewrite stamp_is_mapped. split.
  - rewrite !existsb_app, dashes_have_no_colon. reflexivity.
  - rewrite !length_app, length_map, length_firstn. reflexivity.
Qed.

(** X20.  The document made from a recording is downloaded under the name
    of the recording with [.webm] replaced by [.srt], whatever the date
    was. *)
Theorem recording_download_name (iso : jsstring) :
  downloadName (recordingFileName iso)
  = js "录音-" ++ replace colon_re (js "-") (firstn 19 iso) ++ js ".srt".
Proof.
  unfold recordingFileName.
  change (js ".webm") with (DOT :: js "webm").
  rewrite app_assoc, downloadName_extension.
  - now rewrite <- app_assoc.
  - discriminate.
  - reflexivity.
Qed.

(** *** The recording *)

Lemma run_events_cons st ev events :
  AudioInput.run st (ev :: events) = AudioInput.run (AudioInput.step st ev) events.
Proof. reflexivity. Qed.

Lemma run_events_app st events events' :
  AudioInput.run st (events ++ events')
  = AudioInput.run (AudioInput.run st events) events'.
Proof. unfold AudioInput.run. apply fold_left_app. Qed.

(** The bytes held in the chunks. *)
Abbreviation held_bytes st := (List.concat (map blob_bytes (chunksRef st))).

Lemma step_keeps_bytes st ev :
  no_start [ev] = true ->
  held_bytes (AudioInput.step st ev) = held_bytes st ++ List.concat (arrived [ev]).
Proof.
  destruct ev as [cur|files| stream| |chunk|stream iso| |h]; intros H;
    try discriminate; cbn [AudioInput.step arrived List.concat];
    rewrite ?app_nil_r.
  - reflexivity.
  - destruct (upload_rendered st); [|reflexivity].
    unfold handleFileChange. now destruct files.
  - reflexivity.
  - unfold ondataavailable, size.
    destruct (blob_bytes chunk) as [|b bytes] eqn:E; cbn [List.length Nat.ltb Nat.leb].
    + now rewrite app_nil_r.
    + cbn [chunksRef]. rewrite map_app, concat_app. cbn [map List.concat].
      now rewrite E, app_nil_r.
  - reflexivity.
  - destruct (stop_rendered st); [|reflexivity].
    unfold stopRecording. destruct (mediaRecorderRef st); [|reflexivity].
    now destruct (isRecording st).
  - now destruct (existsb (Nat.eqb h) (intervals st)).
Qed.

Lemma no_start_cons ev events :
  no_start (ev :: events) = true ->
  no_start [ev] = true /\ no_start events = true.
Proof. destruct ev; simpl; intros H; now try split. Qed.

Lemma arrived_cons ev events :
  List.concat (arrived (ev :: events))
  = List.concat (arrived [ev]) ++ List.concat (arrived events).
Proof. destruct ev; simpl; rewrite ?app_nil_r; reflexivity. Qed.

Lemma run_keeps_bytes events :
  forall st, no_start events = true ->
    held_bytes (AudioInput.run st events)
    = held_bytes st ++ List.concat (arrived events).
Proof.
  induction events as [|ev events IH]; intros st H.
  - simpl. now rewrite app_nil_r.
  - apply no_start_cons in H as [Hev Hrest].
    rewrite run_events_cons, (IH _ Hrest), (step_keeps_bytes _ _ Hev).
    now rewrite (arrived_cons ev events), app_assoc.
Qed.

(** X21.  When a recording is started, runs through any events other
    than a new start, and its recorder stops, the blob reported to the
    parent is of type [audio/webm] and holds the data of all the chunks
    that arrived, in their order of arrival, under the name made from the
    date: dropping the empty chunks loses nothing. *)
Theorem recording_keeps_every_chunk
        (st : State) (stream : nat) (events : list Event) (iso : jsstring) :
  no_start events = true ->
  exists before,
    reported (AudioInput.run st (Granted stream :: events ++ [Stopped stream iso]))
    = before
      ++ [({| blob_type := js "audio/webm";
              blob_bytes := List.concat (arrived events) |},
           recordingFileName iso)].
Proof.
  intros H. rewrite run_events_cons, run_events_app.
  set (st1 := AudioInput.step st (Granted stream)).
  set (st2 := AudioInput.run st1 events).
  assert (Hb : held_bytes st2 = List.concat (arrived events))
    by (unfold st2; rewrite (run_keeps_bytes events st1 H); reflexivity).
  exists (reported st2).
  cbn [AudioInput.run fold_left AudioInput.step onstop reported].
  unfold new_Blob. now rewrite Hb.
Qed.

Lemma recording_keeps_every_chunk_witness :
  exists before,
    reported (AudioInput.run mounted
                (Granted 7 :: [DataAvailable clipA_chunk; Tick 1;
                               DataAvailable empty_chunk;
                               DataAvailable clipB_chunk; ClickStop]
                           ++ [Stopped 7 (js "2024-05-06T07:08:09.000Z")]))
    = before
      ++ [({| blob_type := js "audio/webm";
              blob_bytes := [1; 2; 3; 4; 5]%N |},
           recordingFileName (js "2024-05-06T07:08:09.000Z"))].
Proof.
  apply (recording_keeps_every_chunk mounted 7
           [DataAvailable clipA_chunk; Tick 1; DataAvailable empty_chunk;
            DataAvailable clipB_chunk; ClickStop]
           (js "2024-05-06T07:08:09.000Z")).
  reflexivity.
Defined.

(** *** The timer *)

Lemma clear_only_interval h : clearInterval h [h] = [].
Proof. unfold clearInterval. cbn. now destruct (Nat.eq_dec h h). Qed.

Lemma step_timer st ev :
  intervals st = held st ->
  (isRecording st = false -> timerIntervalRef st = None) ->
  match ev with
  | Granted _ => timerIntervalRef st = None
  | _ => True
  end ->
  intervals (AudioInput.step st ev) = held (AudioInput.step st ev)
  /\ (isRecording (AudioInput.step st ev) = false ->
      timerIntervalRef (AudioInput.step st ev) = None).
Proof.
  unfold held. intros Hi Hr Hev.
  destruct ev as [cur|files| stream| |chunk|stream iso| |h];
    cbn [AudioInput.step].
  - (split; [exact Hi|exact Hr]).
  - destruct (upload_rendered st); [|(split; [exact Hi|exact Hr])].
    unfold handleFileChange. destruct files; (split; [exact Hi|exact Hr]).
  - cbn. rewrite Hev in Hi. rewrite Hi. split; [reflexivity|discriminate].
  - (split; [exact Hi|exact Hr]).
  - unfold ondataavailable. destruct (Nat.ltb 0 (size chunk)); (split; [exact Hi|exact Hr]).
  - (split; [exact Hi|exact Hr]).
  - destruct (stop_rendered st); [|(split; [exact Hi|exact Hr])].
    unfold stopRecording. destruct (mediaRecorderRef st); [|(split; [exact Hi|exact Hr])].
    destruct (isRecording st);
      [|split; [exact Hi|intros _; now apply Hr]].
    cbn. split; [|reflexivity].
    destruct (timerIntervalRef st) as [h|]; [|exact Hi].
    rewrite Hi. apply clear_only_interval.
  - destruct (existsb (Nat.eqb h) (intervals st)); (split; [exact Hi|exact Hr]).
Qed.

Lemma run_timer events :
  forall st,
    intervals st = held st ->
    (isRecording st = false -> timerIntervalRef st = None) ->
    one_at_a_time st events ->
    intervals (AudioInput.run st events) = held (AudioInput.run st events)
    /\ (isRecording (AudioInput.run st events) = false ->
        timerIntervalRef (AudioInput.run st events) = None).
Proof.
  induction events as [|ev events IH]; intros st Hi Hr Ho; [now split|].
  destruct Ho as [Hev Ho]. rewrite run_events_cons.
  destruct (step_timer st ev Hi Hr Hev) as [Hi' Hr'].
  now apply IH.
Qed.

(** X22.  When each recording is started while no interval is held, the
    only live interval is the one the component holds; and while nothing
    is being recorded no interval is live at all, so that no callback
    changes the state: the counter stands still once the recording is
    stopped. *)
Theorem timer_lives_only_while_recording (events : list Event) :
  one_at_a_time mounted events ->
  intervals (AudioInput.run mounted events)
  = held (AudioInput.run mounted events)
  /\ (isRecording (AudioInput.run mounted events) = false ->
      intervals (AudioInput.run mounted events) = []
      /\ forall h,
          AudioInput.step (AudioInput.run mounted events) (Tick h)
          = AudioInput.run mounted events).
Proof.
  intros Ho.
  destruct (run_timer events mounted) as [Hi Hr];
    [reflexivity|reflexivity|exact Ho|].
  split; [exact Hi|]. intros Hoff.
  assert (Hnone : intervals (AudioInput.run mounted events) = []).
  { rewrite Hi. unfold held. now rewrite (Hr Hoff). }
  split; [exact Hnone|].
  intros h. cbn [AudioInput.step]. now rewrite Hnone.
Qed.

Lemma timer_lives_only_while_recording_witness :
  let events := [Granted 7; Tick 1; Tick 1; DataAvailable clipA_chunk;
                 ClickStop] in
  intervals (AudioInput.run mounted events) = []
  /\ recordingTime (AudioInput.step (AudioInput.run mounted events) (Tick 1)) = 2.
Proof.
  intros events.
  destruct (timer_lives_only_while_recording events) as [_ H].
  - cbn. repeat split.
  - destruct H as [Hnone Hstill]; [reflexivity|].
    split; [exact Hnone|]. now rewrite Hstill.
Defined.

(** X23.  The handler [stopRecording] of a render that saw no recording
    does nothing.  That of a render that saw one asks the recorder to
    stop, and after the render that follows the new handler does nothing
    more: from one render to the next the recorder is asked to stop once.
    Called a second time by the same render, the handler still sees the
    recording: it asks the recorder to stop a second time, and changes
    nothing else. *)
Theorem stop_recording_once (st : State) :
  stopRecording false st = st
  /\ (let st' := stopRecording (isRecording st) st in
      stopRecording (isRecording st') st' = st'
      /\ List.length (stopRequests (stopRecording (isRecording st') st'))
         <= S (List.length (stopRequests st)))
  /\ (forall recorder,
         mediaRecorderRef st = Some recorder ->
         stopRecording true (stopRecording true st)
         = recorder_stop (stopRecording true st) recorder
         /\ stopRequests (stopRecording true (stopRecording true st))
            = stopRequests st ++ [recorder; recorder]).
Proof.
  unfold stopRecording.
  destruct (mediaRecorderRef st) as [recorder|] eqn:Er.
  - split; [reflexivity|]. split.
    + destruct (isRecording st) eqn:Ei.
      * cbn. split; [reflexivity|]. rewrite length_app. simpl. lia.
      * cbn zeta. rewrite ?Er, ?Ei. split; [reflexivity|]. lia.
    + intros r [= <-]. cbn. rewrite ?Er. cbn.
      split; [reflexivity|]. now rewrite <- app_assoc.
  - split; [reflexivity|]. split.
    + cbn zeta. rewrite ?Er. split; [reflexivity|]. lia.
    + discriminate.
Qed.

Lemma stop_recording_once_witness :
  let st := startRecording_granted mounted 7 in
  stopRequests (stopRecording true (stopRecording true st)) = [7; 7]
  /\ stopRequests
       (stopRecording (isRecording (stopRecording (isRecording st) st))
                      (stopRecording (isRecording st) st))
     = [7].
Proof.
  intros st. split.
  - apply (proj2 (proj2 (stop_recording_once st)) 7). reflexivity.
  - now rewrite (proj1 (proj1 (proj2 (stop_recording_once st)))).
Defined.

End AudioInputFacts.

(* ------------------------------------------------------------------ *)
(** ** The modes *)

Module ModeFacts.
Import JS Types GeminiService.

(** X24.  The four modes are told apart by their labels, which are the
    values of the options of the selector, and by the prompts sent for
    them: two modes with the same label, or with the same prompt, are the
    same mode. *)
Theorem modes_are_told_apart (m m' : TranslationMode) :
  (label m = label m' -> m = m')
  /\ (promptText m = promptText m' -> m = m').
Proof.
  split; destruct m, m'; intros H; try reflexivity;
    vm_compute in H; discriminate.
Qed.

End ModeFacts.
